(** * GitHub integration of the portfolio script (script.js)

    A shallow embedding of the "GITHUB INTEGRATION" part of [script.js]:
    [getRepoSlug], [fetchGitHubRepos] with the [App.github] cache,
    [updateProjectStats], [updateGitHubStats], [hideGitHubStats] and
    [initGitHubIntegration], followed by the properties proved of them. *)

From Stdlib Require Import ZArith Ascii String List Lia Bool Sorted.
From stdpp Require Import base option list sorting strings gmap fin_maps pretty.

Local Open Scope Z_scope.

(** ** Strings

    A JavaScript string is taken as a [string] holding its UTF-8 bytes.
    The classes used by the script's regular expressions name ASCII
    characters only, so a run of characters outside [a-z0-9] is a run of
    bytes outside [a-z0-9], and the other way round. *)

(** The character class [[a-z0-9]]. *)
Definition is_lower_or_digit (c : ascii) : bool :=
  let n := nat_of_ascii c in
  ((97 <=? n) && (n <=? 122) || (48 <=? n) && (n <=? 57))%nat.

Definition is_hyphen (c : ascii) : bool := Ascii.eqb c "-".

(** [.replace(/[^a-z0-9]+/g, "-")]: every maximal run of characters outside
    [[a-z0-9]] becomes one hyphen.  [in_run] says that the character before
    the current one was part of such a run (whose hyphen is already out). *)
Fixpoint replace_runs (in_run : bool) (s : string) : string :=
  match s with
  | EmptyString => EmptyString
  | String c r =>
      if is_lower_or_digit c then String c (replace_runs false r)
      else if in_run then replace_runs true r
      else String "-" (replace_runs true r)
  end.

(** The [-$] alternative: a hyphen that is the last character goes. *)
Fixpoint drop_last_hyphen (s : string) : string :=
  match s with
  | EmptyString => EmptyString
  | String c EmptyString => if is_hyphen c then EmptyString else s
  | String c r => String c (drop_last_hyphen r)
  end.

(** [.replace(/(^-|-$)/g, "")]: the [^-] alternative can only match at index
    0; the search then goes on behind that match, where only [-$] can
    match. *)
Definition strip_edge_hyphens (s : string) : string :=
  match s with
  | String c r => if is_hyphen c then drop_last_hyphen r else drop_last_hyphen s
  | EmptyString => EmptyString
  end.

(** What the class of slugs looks like. *)
Definition slug_char (c : ascii) : bool := is_lower_or_digit c || is_hyphen c.

Fixpoint all_slug_chars (s : string) : bool :=
  match s with
  | EmptyString => true
  | String c r => slug_char c && all_slug_chars r
  end.

Definition starts_with_hyphen (s : string) : bool :=
  match s with String c _ => is_hyphen c | EmptyString => false end.

Fixpoint ends_with_hyphen (s : string) : bool :=
  match s with
  | EmptyString => false
  | String c EmptyString => is_hyphen c
  | String _ r => ends_with_hyphen r
  end.

Fixpoint has_double_hyphen (s : string) : bool :=
  match s with
  | EmptyString => false
  | String c r => (is_hyphen c && starts_with_hyphen r) || has_double_hyphen r
  end.

(** Lowercase ASCII letters, digits and hyphens; no hyphen first or last; no
    two hyphens in a row. *)
Definition is_slug (s : string) : bool :=
  all_slug_chars s && negb (starts_with_hyphen s)
  && negb (ends_with_hyphen s) && negb (has_double_hyphen s).

(** The shape of a string while it is read from the left: slug characters
    only, no hyphen behind a hyphen, and none first when [after_hyphen]. *)
Fixpoint single_hyphens (after_hyphen : bool) (s : string) : bool :=
  match s with
  | EmptyString => true
  | String c r =>
      if is_hyphen c then negb after_hyphen && single_hyphens true r
      else is_lower_or_digit c && single_hyphens false r
  end.

(** [String.prototype.toLowerCase] on ASCII: the full Unicode case table is
    not part of the script, so [getRepoSlug] takes the function as a
    parameter; this is what it does to ASCII text. *)
Definition lower_ascii (c : ascii) : ascii :=
  let n := nat_of_ascii c in
  if ((65 <=? n) && (n <=? 90))%nat then ascii_of_nat (n + 32) else c.

Fixpoint ascii_toLowerCase (s : string) : string :=
  match s with
  | EmptyString => EmptyString
  | String c r => String (lower_ascii c) (ascii_toLowerCase r)
  end.


(** ** Values, errors and promises *)

(** The four properties the script reads of a repository object.  A property
    that is missing ([undefined]) or [null] is [None]; the counts are the
    integers and the other two the strings of the GitHub REST API. *)
Record repo_fields := {
  name : option string;
  stargazers_count : option Z;
  forks_count : option Z;
  updated_at : option string;
}.

(** What [response.json()] can resolve to, as far as the script tells values
    apart: [null]; another falsy value ([0], [false], the empty string),
    which has none of the four properties; any other value. *)
Inductive js_value :=
  | JNull
  | JFalsy
  | JObject (r : repo_fields).

#[global] Instance repo_fields_eq_dec : EqDecision repo_fields.
Proof. solve_decision. Defined.

#[global] Instance js_value_eq_dec : EqDecision js_value.
Proof. solve_decision. Defined.

Definition prop_of {A} (field : repo_fields -> option A) (v : js_value) : option A :=
  match v with
  | JObject r => field r
  | JNull | JFalsy => None
  end.

(** [x || 0] for a count. *)
Definition or_zero (x : option Z) : Z :=
  match x with
  | Some n => n
  | None => 0
  end.

Inductive js_error :=
  | FetchFailed                (* fetch() rejects: no answer from the network *)
  | HttpError (status : Z)     (* new Error(`HTTP ${response.status}`) *)
  | JsonSyntaxError            (* response.json() rejects *)
  | TypeError                  (* undefined.toLowerCase() *)
  | SelectorSyntaxError.       (* querySelector on an invalid selector *)

(** A settled promise. *)
Inductive settled (A : Type) :=
  | Fulfilled (a : A)
  | Rejected (e : js_error).
Arguments Fulfilled {A} a.
Arguments Rejected {A} e.

Definition then_ {A B} (p : settled A) (f : A -> settled B) : settled B :=
  match p with
  | Fulfilled a => f a
  | Rejected e => Rejected e
  end.

Definition catch_ {A} (p : settled A) (h : js_error -> settled A) : settled A :=
  match p with
  | Fulfilled a => Fulfilled a
  | Rejected e => h e
  end.

(** [Promise.all]: the values in the order of the promises, or a rejection
    (here the one of the first rejected promise by position). *)
Fixpoint Promise_all {A} (ps : list (settled A)) : settled (list A) :=
  match ps with
  | [] => Fulfilled []
  | p :: ps =>
      then_ p (fun a => then_ (Promise_all ps) (fun l => Fulfilled (a :: l)))
  end.

(** An HTTP response: its status and, when the body is JSON, its value. *)
Record response := {
  status : Z;
  json : option js_value;
}.

(** [response.ok] *)
Definition ok (r : response) : bool := (200 <=? status r) && (status r <=? 299).

(** ** The cache: [App.github] *)

Record github := {
  cache : gmap string (list js_value);
  lastFetch : Z;
}.

Definition cacheDuration : Z := 5 * 60 * 1000.

Definition App_github : github := {| cache := ∅; lastFetch := 0 |}.

Definition username : string := "karimhelal".

(** [`https://api.github.com/repos/${username}/${repo}`] *)
Definition repo_url (repo : string) : string :=
  "https://api.github.com/repos/" +:+ username +:+ "/" +:+ repo.

(** The callback of [.then]. *)
Definition on_response (r : response) : settled js_value :=
  if ok r then
    match json r with
    | Some v => Fulfilled v
    | None => Rejected JsonSyntaxError
    end
  else Rejected (HttpError (status r)).

(** The callback of [repositories.map]: the URL handed to [fetch] and the
    promise made of its answer.  [fetch i url] is how the request issued for
    the [i]-th name settles. *)
Definition request (fetch : nat -> string -> settled response)
    (i : nat) (repo : string) : string * settled js_value :=
  let url := repo_url repo in
  (url, catch_ (then_ (fetch i url) on_response) (fun _ => Fulfilled JNull)).

(** The cache check at the head of [fetchGitHubRepos]. *)
Definition cached_at (st : github) (now : Z) : option (list js_value) :=
  if now - lastFetch st <? cacheDuration then cache st !! "repositories"
  else None.

(** A call of [fetchGitHubRepos]: how its promise settles, the URLs it
    requested, and [App.github] afterwards. *)
Record fetched := {
  outcome : settled (list js_value);
  requests : list string;
  github_after : github;
}.

(** async function fetchGitHubRepos(repositories), run to completion. *)
Definition fetchGitHubRepos (fetch : nat -> string -> settled response)
    (now : Z) (repositories : list string) (st : github) : fetched :=
  match cached_at st now with
  | Some cached =>
      {| outcome := Fulfilled cached; requests := []; github_after := st |}
  | None =>
      let calls := imap (request fetch) repositories in
      match Promise_all (snd <$> calls) with
      | Rejected e =>
          {| outcome := Rejected e; requests := fst <$> calls;
             github_after := st |}
      | Fulfilled results =>
          let validResults := filter (fun result => result ≠ JNull) results in
          {| outcome := Fulfilled validResults;
             requests := fst <$> calls;
             github_after :=
               {| cache := <["repositories" := validResults]> (cache st);
                  lastFetch := now |} |}
      end
  end.

(** The cache is fresh at [now]: a call then is answered from it. *)
Definition is_fresh (st : github) (now : Z) : bool :=
  bool_decide (is_Some (cached_at st now)).

(** The request for the [i]-th name failed: no answer, or an answer whose
    status is not a success. *)
Definition failed (p : settled response) : bool :=
  match p with
  | Fulfilled r => negb (ok r)
  | Rejected _ => true
  end.

(** What the request for the [i]-th name brought back, when it did: an
    answer with a success status whose body is JSON and not [null]. *)
Definition delivered (fetch : nat -> string -> settled response)
    (i : nat) (repo : string) : option js_value :=
  match fetch i (repo_url repo) with
  | Fulfilled r =>
      if ok r then
        match json r with
        | Some JNull | None => None
        | Some v => Some v
        end
      else None
  | Rejected _ => None
  end.

(** The states of [App.github] that calls of [fetchGitHubRepos], one after
    the other, lead to. *)
Inductive calls : github -> github -> Prop :=
  | calls_none st : calls st st
  | calls_more st st' fetch now repos :
      calls st st' ->
      calls st (github_after (fetchGitHubRepos fetch now repos st')).

Definition reachable (st : github) : Prop := calls App_github st.

(** ** The page *)

(** An element with an id.  [animating] is the target of the last
    [animateStatNumber] started on it: its frames write the text after the
    synchronous code has run, ending at the target. *)
Record element := {
  textContent : string;
  animating : option Z;
}.

(** What the element shows once its animation has come to its last frame. *)
Definition displayed (e : element) : string :=
  match animating e with
  | Some target => pretty target
  | None => textContent e
  end.

(** A [.project-card]: its descendants with an id, the content of its
    [.last-updated] descendant, and whether it has a [.project-content]. *)
Record project_card := {
  by_id : gmap string element;
  last_updated : option string;
  project_content : bool;
}.

Record document := {
  project_cards : list project_card;
  github_stats : option string;         (* innerHTML of $(".github-stats") *)
  elsewhere : gmap string element;      (* elements with an id outside the cards *)
}.

Definition is_digit (c : ascii) : bool :=
  let n := nat_of_ascii c in ((48 <=? n) && (n <=? 57))%nat.

(** Whether [#id] is a selector, for an id of lowercase letters, digits and
    hyphens: an identifier starts with neither a digit nor a hyphen and a
    digit, and is more than a hyphen. *)
Definition valid_id_selector (id : string) : bool :=
  match id with
  | EmptyString => false
  | String c r =>
      if is_digit c then false
      else if is_hyphen c then
        match r with
        | EmptyString => false
        | String d _ => negb (is_digit d)
        end
      else true
  end.

(** [card.querySelector(`#${id}`)] *)
Definition querySelector_id (card : project_card) (id : string)
  : settled (option element) :=
  if valid_id_selector id then Fulfilled (by_id card !! id)
  else Rejected SelectorSyntaxError.

(** function animateStatNumber(element, target), on the element [id] of the
    card when there is one. *)
Definition animateStatNumber (id : string) (found : option element) (target : Z)
    (card : project_card) : project_card :=
  match found with
  | Some e =>
      {| by_id := <[id := {| textContent := textContent e;
                             animating := Some target |}]> (by_id card);
         last_updated := last_updated card;
         project_content := project_content card |}
  | None => card
  end.

(** function getTimeAgo(date); [diffInMs] is [None] for an invalid date. *)
Definition getTimeAgo (diffInMs : option Z) : string :=
  match diffInMs with
  | None => "NaN years ago"
  | Some diff =>
      let diffInDays := diff / (1000 * 60 * 60 * 24) in
      if diffInDays =? 0 then "today"
      else if diffInDays =? 1 then "yesterday"
      else if diffInDays <? 30 then pretty diffInDays +:+ " days ago"
      else if diffInDays <? 365 then pretty (diffInDays / 30) +:+ " months ago"
      else pretty (diffInDays / 365) +:+ " years ago"
  end.

Section Rendering.

(** [String.prototype.toLowerCase]. *)
Variable toLowerCase : string -> string.

(** [new Date() - new Date(updatedAt)] in milliseconds, [None] when
    [updatedAt] is not a date. *)
Variable elapsed_since : string -> option Z.

(** function getRepoSlug(repoName) *)
Definition getRepoSlug (repoName : string) : string :=
  strip_edge_hyphens (replace_runs false (toLowerCase repoName)).

(** function addLastUpdatedInfo(card, updatedAt) *)
Definition addLastUpdatedInfo (card : project_card) (updatedAt : option string)
  : project_card :=
  match updatedAt with
  | None => card
  | Some EmptyString => card
  | Some date =>
      let timeAgo := getTimeAgo (elapsed_since date) in
      match last_updated card with
      | Some _ => card
      | None =>
          if project_content card then
            {| by_id := by_id card;
               last_updated := Some ("<small>Updated " +:+ timeAgo +:+ "</small>");
               project_content := true |}
          else card
      end
  end.

(** The callback of [repoData.forEach] in [updateProjectStats]. *)
Definition project_stats_of (repo : js_value) (index : nat) (doc : document)
  : settled document :=
  match repo with
  | JNull | JFalsy => Fulfilled doc
  | JObject r =>
      match project_cards doc !! index with
      | None => Fulfilled doc
      | Some card =>
          match name r with
          | None => Rejected TypeError
          | Some repo_name =>
              let stars_id := getRepoSlug repo_name +:+ "-stars" in
              let forks_id := getRepoSlug repo_name +:+ "-forks" in
              then_ (querySelector_id card stars_id) (fun starsElement =>
              then_ (querySelector_id card forks_id) (fun forksElement =>
                let card1 :=
                  animateStatNumber stars_id starsElement
                    (or_zero (stargazers_count r)) card in
                let card2 :=
                  animateStatNumber forks_id forksElement
                    (or_zero (forks_count r)) card1 in
                let card3 := addLastUpdatedInfo card2 (updated_at r) in
                Fulfilled
                  {| project_cards := <[index := card3]> (project_cards doc);
                     github_stats := github_stats doc;
                     elsewhere := elsewhere doc |}))
          end
      end
  end.

(** [repoData.forEach] from [index] on: the page as it is when the loop ends
    or throws, and what was thrown. *)
Fixpoint forEach_from (index : nat) (repoData : list js_value) (doc : document)
  : document * option js_error :=
  match repoData with
  | [] => (doc, None)
  | repo :: rest =>
      match project_stats_of repo index doc with
      | Fulfilled doc' => forEach_from (S index) rest doc'
      | Rejected e => (doc, Some e)
      end
  end.

(** function updateProjectStats(repoData) *)
Definition updateProjectStats (repoData : list js_value) (doc : document)
  : document * option js_error :=
  forEach_from 0 repoData doc.

End Rendering.

(** [repo.<field> || 0] in the callback of [reduce]: reading a property of
    [null] throws, another value without the property gives 0. *)
Definition count_of (field : repo_fields -> option Z) (repo : js_value)
  : settled Z :=
  match repo with
  | JNull => Rejected TypeError
  | JFalsy | JObject _ => Fulfilled (or_zero (prop_of field repo))
  end.

(** [repoData.reduce((sum, repo) => sum + (repo.<field> || 0), 0)]: the
    callback runs on the elements from left to right until one throws.  The
    counts are integers far below 2^53, where the addition of JavaScript
    numbers is the addition of integers. *)
Definition reduce_count (field : repo_fields -> option Z)
    (repoData : list js_value) : settled Z :=
  fold_left
    (fun sum repo =>
       then_ sum (fun sum =>
       then_ (count_of field repo) (fun count => Fulfilled (sum + count))))
    repoData (Fulfilled 0).

Definition quote : string := String "034"%char EmptyString.
Definition newline : string := String "010"%char EmptyString.

Definition stat_html (number label : string) : string :=
  newline +:+ "      <div class=" +:+ quote +:+ "stat" +:+ quote +:+ ">"
  +:+ newline +:+ "        <span class=" +:+ quote +:+ "stat-number" +:+ quote
  +:+ ">" +:+ number +:+ "</span>"
  +:+ newline +:+ "        <span class=" +:+ quote +:+ "stat-label" +:+ quote
  +:+ ">" +:+ label +:+ "</span>"
  +:+ newline +:+ "      </div>".

(** The template literal of [updateGitHubStats]. *)
Definition stats_html (totalStars totalForks : Z) (count : nat) : string :=
  stat_html (pretty totalStars) "Total Stars"
  +:+ stat_html (pretty totalForks) "Total Forks"
  +:+ stat_html (pretty count) "Public Repos"
  +:+ newline +:+ "    ".

(** function updateGitHubStats(repoData): the page afterwards, or what a
    [reduce] threw before anything was written. *)
Definition updateGitHubStats (repoData : list js_value) (doc : document)
  : settled document :=
  then_ (reduce_count stargazers_count repoData) (fun totalStars =>
  then_ (reduce_count forks_count repoData) (fun totalForks =>
    Fulfilled
      match github_stats doc with
      | Some _ =>
          {| project_cards := project_cards doc;
             github_stats :=
               Some (stats_html totalStars totalForks (length repoData));
             elsewhere := elsewhere doc |}
      | None => doc
      end)).

(** [s] ends with [suffix]: the attribute selector [[id$="suffix"]]. *)
Definition ends_with (suffix s : string) : bool :=
  (String.length suffix <=? String.length s)%nat
  && String.eqb
       (substring (String.length s - String.length suffix)
          (String.length suffix) s)
       suffix.

Definition is_stat_id (id : string) : bool :=
  ends_with "-stars" id || ends_with "-forks" id.

(** The callback of [statElements.forEach] in [hideGitHubStats], on the
    elements the selector picks. *)
Definition hide_stat (id : string) (e : element) : element :=
  if is_stat_id id then {| textContent := "-"; animating := animating e |}
  else e.

Definition hide_stats_in (els : gmap string element) : gmap string element :=
  map_imap (fun id e => Some (hide_stat id e)) els.

(** function hideGitHubStats() *)
Definition hideGitHubStats (doc : document) : document :=
  {| project_cards :=
       (fun card =>
          {| by_id := hide_stats_in (by_id card);
             last_updated := last_updated card;
             project_content := project_content card |})
       <$> project_cards doc;
     github_stats := github_stats doc;
     elsewhere := hide_stats_in (elsewhere doc) |}.

Definition repositories : list string :=
  ["Fifa-World-Cup-Qatar-2022"; "Adidas"; "Portfolio"; "datasets";
   "E-learning-platform"].

(** async function initGitHubIntegration(), run to completion: [App.github]
    and the page afterwards. *)
Definition initGitHubIntegration (toLowerCase : string -> string)
    (elapsed_since : string -> option Z)
    (fetch : nat -> string -> settled response) (now : Z)
    (st : github) (doc : document) : github * document :=
  let call := fetchGitHubRepos fetch now repositories st in
  match outcome call with
  | Fulfilled repoData =>
      match updateProjectStats toLowerCase elapsed_since repoData doc with
      | (doc', None) =>
          match updateGitHubStats repoData doc' with
          | Fulfilled doc'' => (github_after call, doc'')
          | Rejected _ => (github_after call, hideGitHubStats doc')
          end
      | (doc', Some _) => (github_after call, hideGitHubStats doc')
      end
  | Rejected _ => (github_after call, hideGitHubStats doc)
  end.

(** ** Reference definitions and a sample page *)

(** The sum of a count over the repositories of a batch, a missing count
    counting as 0. *)
Fixpoint sum_counts (field : repo_fields -> option Z)
    (repoData : list js_value) : Z :=
  match repoData with
  | [] => 0
  | repo :: rest =>
      match prop_of field repo with
      | Some n => n
      | None => 0
      end + sum_counts field rest
  end.

(** A page with one card per repository, each with its two stat elements,
    and a stats container. *)
Definition stat_card (slug : string) : project_card :=
  {| by_id :=
       {[ slug +:+ "-stars" := {| textContent := "0"; animating := None |};
          slug +:+ "-forks" := {| textContent := "0"; animating := None |} ]};
     last_updated := None;
     project_content := true |}.

Definition sample_page : document :=
  {| project_cards :=
       stat_card <$> ["fifa-world-cup-qatar-2022"; "adidas"; "portfolio";
                      "datasets"; "e-learning-platform"];
     github_stats := Some EmptyString;
     elsewhere := ∅ |}.

Definition network_down : nat -> string -> settled response :=
  fun _ _ => Rejected FetchFailed.

(** A page whose stat elements hold numbers written into the markup. *)
Definition static_card (slug stars forks : string) : project_card :=
  {| by_id :=
       {[ slug +:+ "-stars" := {| textContent := stars; animating := None |};
          slug +:+ "-forks" := {| textContent := forks; animating := None |} ]};
     last_updated := None;
     project_content := true |}.

Definition static_page : document :=
  {| project_cards :=
       [static_card "fifa-world-cup-qatar-2022" "7" "1";
        static_card "adidas" "12" "4";
        static_card "portfolio" "3" "2";
        static_card "datasets" "5" "6";
        static_card "e-learning-platform" "9" "8"];
     github_stats := Some EmptyString;
     elsewhere := ∅ |}.

(** ** Sequences of calls and what rendering keeps *)

(** The arguments of one call of [fetchGitHubRepos]: how the network answers
    it, the time it reads, and the names it is given. *)
Record call_args := {
  call_fetch : nat -> string -> settled response;
  call_now : Z;
  call_repositories : list string;
}.

(** [App.github] after the calls of the list, one after the other. *)
Definition after_calls (st : github) (l : list call_args) : github :=
  foldl (fun st c =>
           github_after
             (fetchGitHubRepos (call_fetch c) (call_now c)
                (call_repositories c) st))
    st l.

(** The network of [fetch], with no answer to the [i]-th request. *)
Definition without_answer (i : nat) (fetch : nat -> string -> settled response)
  : nat -> string -> settled response :=
  fun j url => if decide (j = i) then Rejected FetchFailed else fetch j url.

(** A card after rendering, against the card before: the same elements with
    the same text, the same [.project-content], and the [.last-updated] line
    it had, if it had one. *)
Definition card_kept (card card' : project_card) : Prop :=
  (forall id, textContent <$> by_id card' !! id = textContent <$> by_id card !! id)
  /\ project_content card' = project_content card
  /\ (forall info, last_updated card = Some info -> last_updated card' = Some info).

(** ** The contact form *)

Module ContactForm.

(** The value of a field as its UTF-16 code units, which is what [trim],
    [length] and the classes of a regular expression without the [u] flag
    count and name. *)
Abbreviation js_string := (list N).

(** White space and line terminators: what [\s] matches and what [trim]
    strips. *)
Definition is_white_space (c : N) : bool :=
  ((c =? 9) || (c =? 10) || (c =? 11) || (c =? 12) || (c =? 13) || (c =? 32)
   || (c =? 160) || (c =? 5760) || ((8192 <=? c) && (c <=? 8202))
   || (c =? 8232) || (c =? 8233) || (c =? 8239) || (c =? 8287)
   || (c =? 12288) || (c =? 65279))%N.

Fixpoint trimStart (s : js_string) : js_string :=
  match s with
  | c :: r => if is_white_space c then trimStart r else s
  | [] => []
  end.

Definition trimEnd (s : js_string) : js_string :=
  reverse (trimStart (reverse s)).

(** [String.prototype.trim] *)
Definition trim (s : js_string) : js_string := trimEnd (trimStart s).

(** Regular expressions over code units, as far as the script uses them,
    with the two forms their derivatives need ([Never], [Or]). *)
Inductive regex :=
  | Never
  | Empty
  | Class (p : N -> bool)
  | Then (r1 r2 : regex)
  | Or (r1 r2 : regex)
  | Many (r : regex).

(** [r+] *)
Definition OneOrMore (r : regex) : regex := Then r (Many r).

Fixpoint nullable (r : regex) : bool :=
  match r with
  | Never | Class _ => false
  | Empty | Many _ => true
  | Then r1 r2 => nullable r1 && nullable r2
  | Or r1 r2 => nullable r1 || nullable r2
  end.

(** What is left of [r] to match once [c] has been read. *)
Fixpoint derive (c : N) (r : regex) : regex :=
  match r with
  | Never | Empty => Never
  | Class p => if p c then Empty else Never
  | Then r1 r2 =>
      if nullable r1 then Or (Then (derive c r1) r2) (derive c r2)
      else Then (derive c r1) r2
  | Or r1 r2 => Or (derive c r1) (derive c r2)
  | Many r => Then (derive c r) (Many r)
  end.

(** [/^r$/.test(s)] *)
Fixpoint test (r : regex) (s : js_string) : bool :=
  match s with
  | [] => nullable r
  | c :: s => test (derive c r) s
  end.

(** The strings a regular expression stands for. *)
Inductive matches : regex -> js_string -> Prop :=
  | matches_empty : matches Empty []
  | matches_class p c : p c = true -> matches (Class p) [c]
  | matches_then r1 r2 s1 s2 :
      matches r1 s1 -> matches r2 s2 -> matches (Then r1 r2) (s1 ++ s2)
  | matches_or_l r1 r2 s : matches r1 s -> matches (Or r1 r2) s
  | matches_or_r r1 r2 s : matches r2 s -> matches (Or r1 r2) s
  | matches_many_none r : matches (Many r) []
  | matches_many_more r s1 s2 :
      matches r s1 -> matches (Many r) s2 -> matches (Many r) (s1 ++ s2).

Definition at_sign : N := 64.
Definition dot : N := 46.

(** The class [[^\s@]]. *)
Definition not_space_or_at (c : N) : bool :=
  negb (is_white_space c) && negb (c =? at_sign)%N.

(** [/^[^\s@]+@[^\s@]+\.[^\s@]+$/] *)
Definition emailRegex : regex :=
  Then (OneOrMore (Class not_space_or_at))
    (Then (Class (N.eqb at_sign))
       (Then (OneOrMore (Class not_space_or_at))
          (Then (Class (N.eqb dot))
             (OneOrMore (Class not_space_or_at))))).

(** function isValidEmail(email) *)
Definition isValidEmail (email : js_string) : bool := test emailRegex email.

(** The [.form-error] element in the parent of a field: its text and
    whether it has the class "show". *)
Record error_element := {
  error_text : string;
  error_shown : bool;
}.

(** An input, textarea or select of the form. *)
Record field := {
  value : js_string;
  type : string;
  name : string;
  tagName : string;
  required : bool;              (* hasAttribute("required") *)
  minlength : option string;    (* getAttribute("minlength") *)
  label : option string;        (* text of the form's label for the field *)
  classList : gset string;
  aria_invalid : option string;
}.

Definition with_state (classes : gset string) (aria : option string)
    (f : field) : field :=
  {| value := value f; type := type f; name := name f; tagName := tagName f;
     required := required f; minlength := minlength f; label := label f;
     classList := classes; aria_invalid := aria |}.

(** The field after the user has put [v] into it. *)
Definition with_value (v : js_string) (f : field) : field :=
  {| value := v; type := type f; name := name f; tagName := tagName f;
     required := required f; minlength := minlength f; label := label f;
     classList := classList f; aria_invalid := aria_invalid f |}.

(** function getFieldLabel(field) *)
Definition getFieldLabel (f : field) : string :=
  match label f with
  | Some text => text
  | None => name f
  end.

(** function showFieldError(field, message) *)
Definition showFieldError (f : field) (err : option error_element)
    (message : string) : field * option error_element :=
  (with_state ({[ "error" ]} ∪ classList f) (Some "true") f,
   (fun _ => {| error_text := message; error_shown := true |}) <$> err).

(** function clearFieldError(field) *)
Definition clearFieldError (f : field) (err : option error_element)
  : field * option error_element :=
  (with_state (classList f ∖ {[ "error"; "success" ]}) None f,
   (fun _ => {| error_text := EmptyString; error_shown := false |}) <$> err).

(** function showFieldSuccess(field) *)
Definition showFieldSuccess (f : field) : field :=
  with_state ({[ "success" ]} ∪ classList f) (Some "false") f.

Section ValidateField.

(** [n < s] for a number and a string of the script: the string is read as
    a number, and the comparison is false when it is none. *)
Variable less_than_string : nat -> string -> bool.

(** The message [validateField] arrives at; the empty string for none. *)
Definition errorMessage_of (f : field) : string :=
  let value := trim (value f) in
  if required f && bool_decide (value = []) then
    getFieldLabel f +:+ " is required"
  else if bool_decide (value ≠ []) then
    if bool_decide (type f = "email") then
      if negb (isValidEmail value) then "Please enter a valid email address"
      else EmptyString
    else if bool_decide (type f = "text") then
      if bool_decide (name f = "name") && (length value <? 2)%nat then
        "Name must be at least 2 characters"
      else EmptyString
    else if bool_decide (tagName f = "TEXTAREA") then
      match minlength f with
      | None | Some EmptyString =>
          if (length value <? 20)%nat then
            "Message must be at least " +:+ "20" +:+ " characters"
          else EmptyString
      | Some minLength =>
          if less_than_string (length value) minLength then
            "Message must be at least " +:+ minLength +:+ " characters"
          else EmptyString
      end
    else EmptyString
  else EmptyString.

(** function validateField(field): what it returns, the field and the
    [.form-error] element of its parent afterwards. *)
Definition validateField (f : field) (err : option error_element)
  : bool * (field * option error_element) :=
  let errorMessage := errorMessage_of f in
  let cleared := clearFieldError f err in
  match errorMessage with
  | EmptyString => (true, (showFieldSuccess cleared.1, cleared.2))
  | _ => (false, showFieldError cleared.1 cleared.2 errorMessage)
  end.

(** A form: its fields in document order, each with a key for the
    [.form-error] element that [field.parentElement.querySelector] finds
    (fields in one parent have one key), and the elements by key. *)
Record form := {
  fields : list (nat * field);
  form_errors : gmap nat error_element;
}.

(** [validateField] on the [i]-th field of the form. *)
Definition validate_in_form (i : nat) (frm : form) : bool * form :=
  match fields frm !! i with
  | None => (true, frm)
  | Some (parent, f) =>
      let result := validateField f (form_errors frm !! parent) in
      (result.1,
       {| fields := <[i := (parent, result.2.1)]> (fields frm);
          form_errors :=
            match result.2.2 with
            | Some err => <[parent := err]> (form_errors frm)
            | None => form_errors frm
            end |})
  end.

(** The fields [handleFormSubmission] validates: the required ones. *)
Definition required_inputs (frm : form) : list nat :=
  filter (fun i => (required ∘ snd <$> fields frm !! i) = Some true)
    (seq 0 (length (fields frm))).

(** The loop of [handleFormSubmission] over the required fields: the form
    afterwards and [isValid]. *)
Definition validate_required (frm : form) : form * bool :=
  foldl (fun state i =>
           let result := validate_in_form i state.1 in
           (result.2, if result.1 then state.2 else false))
    (frm, true) (required_inputs frm).

End ValidateField.

End ContactForm.

(** ** The typewriter *)

Module Typewriter.

Abbreviation js_string := (list N).

(** The code units of an ASCII text. *)
Definition text (s : string) : js_string :=
  N_of_ascii <$> list_ascii_of_string s.

Definition comma : N := 44.

(** [s.split(",")] *)
Fixpoint split (s : js_string) : list js_string :=
  match s with
  | [] => [[]]
  | c :: r =>
      if (c =? comma)%N then [] :: split r
      else
        match split r with
        | word :: rest => (c :: word) :: rest
        | [] => [[c]]
        end
  end.

(** The words [initTypewriter] hands to the effect, from the [data-words]
    attribute of the element. *)
Definition initTypewriter_words (data_words : option js_string)
  : list js_string :=
  match data_words with
  | Some s => split s
  | None =>
      [text "Full-Stack .NET Developer"; text "Data Scientist";
       text "Problem Solver"; text "CS Student"]
  end.

(** class TypewriterEffect; [element] is the text of its element. *)
Record TypewriterEffect := {
  element : js_string;
  words : list js_string;
  currentWordIndex : nat;
  currentCharIndex : Z;
  isDeleting : bool;
  isRunning : bool;
}.

(** constructor(element, words), on an element showing [shown]. *)
Definition new (shown : js_string) (ws : list js_string) : TypewriterEffect :=
  {| element := shown; words := ContactForm.trim <$> ws;
     currentWordIndex := 0; currentCharIndex := 0;
     isDeleting := false; isRunning := false |}.

(** [word.substring(0, n)] *)
Definition substring_to (n : Z) (word : js_string) : js_string :=
  take (Z.to_nat n) word.

(** What [type] hands to [setTimeout]: [base + Math.random() * 50], or a
    pause. *)
Inductive delay :=
  | Jittered (base : Z)
  | Pause (ms : Z).

(** type(): the effect afterwards and the delay of the timeout it sets, if
    it sets one. *)
Definition type (t : TypewriterEffect)
  : settled (TypewriterEffect * option delay) :=
  if negb (isRunning t) then Fulfilled (t, None)
  else
    match words t !! currentWordIndex t with
    | None => Rejected TypeError
    | Some currentWord =>
        let charIndex :=
          if isDeleting t then currentCharIndex t - 1
          else currentCharIndex t + 1 in
        let shown := substring_to charIndex currentWord in
        let typeSpeed := Jittered (if isDeleting t then 75 else 150) in
        if negb (isDeleting t) && (charIndex =? Z.of_nat (length currentWord))
        then
          Fulfilled
            ({| element := shown; words := words t;
                currentWordIndex := currentWordIndex t;
                currentCharIndex := charIndex;
                isDeleting := true; isRunning := true |},
             Some (Pause 2000))
        else if isDeleting t && (charIndex =? 0) then
          Fulfilled
            ({| element := shown; words := words t;
                currentWordIndex :=
                  (currentWordIndex t + 1) mod length (words t);
                currentCharIndex := charIndex;
                isDeleting := false; isRunning := true |},
             Some (Pause 500))
        else
          Fulfilled
            ({| element := shown; words := words t;
                currentWordIndex := currentWordIndex t;
                currentCharIndex := charIndex;
                isDeleting := isDeleting t; isRunning := true |},
             Some typeSpeed)
    end.

(** The effect after [n] timeouts have run [type]. *)
Fixpoint ticks (n : nat) (t : TypewriterEffect) : settled TypewriterEffect :=
  match n with
  | O => Fulfilled t
  | S n => then_ (type t) (fun next => ticks n next.1)
  end.

(** start() *)
Definition start (t : TypewriterEffect)
  : settled (TypewriterEffect * option delay) :=
  if isRunning t then Fulfilled (t, None)
  else
    type {| element := element t; words := words t;
            currentWordIndex := currentWordIndex t;
            currentCharIndex := currentCharIndex t;
            isDeleting := isDeleting t; isRunning := true |}.

(** stop() *)
Definition stop (t : TypewriterEffect) : TypewriterEffect :=
  {| element := element t; words := words t;
     currentWordIndex := currentWordIndex t;
     currentCharIndex := currentCharIndex t;
     isDeleting := isDeleting t; isRunning := false |}.

End Typewriter.

(** ** Project filtering *)

Module Filtering.

(** The three properties of [project.style] that [filterProjects] writes. *)
Record style := {
  display : string;
  opacity : string;
  transform : string;
}.

(** A project card: its [data-category] attribute and its style. *)
Record project := {
  data_category : option string;
  project_style : style;
}.

(** The two callbacks [filterProjects] hands to [setTimeout], with the
    index of the project they are about. *)
Inductive callback :=
  | Reveal (index : nat)     (* opacity = "1"; transform = "translateY(0)" *)
  | Remove (index : nat).    (* display = "none" *)

#[global] Instance callback_eq_dec : EqDecision callback.
Proof. solve_decision. Defined.

(** [filter === "all" || category === filter], where [filter] is the
    [data-filter] attribute of the button and may be missing. *)
Definition shouldShow (filter : option string) (p : project) : bool :=
  bool_decide (filter = Some "all") || bool_decide (data_category p = filter).

(** The callback of [projects.forEach]: the project after the synchronous
    part, and the timeout that is set, with its delay. *)
Definition filter_project (filter : option string) (index : nat) (p : project)
  : project * (Z * callback) :=
  if shouldShow filter p then
    ({| data_category := data_category p;
        project_style :=
          {| display := "block"; opacity := opacity (project_style p);
             transform := transform (project_style p) |} |},
     (Z.of_nat index * 100, Reveal index))
  else
    ({| data_category := data_category p;
        project_style :=
          {| display := display (project_style p); opacity := "0";
             transform := "translateY(20px)" |} |},
     (300, Remove index)).

(** function filterProjects(projects, filter): the projects when it returns
    and the timeouts it has set. *)
Definition filterProjects (projects : list project) (filter : option string)
  : list project * list (Z * callback) :=
  (imap (fun index p => (filter_project filter index p).1) projects,
   imap (fun index p => (filter_project filter index p).2) projects).

(** A timeout runs. *)
Definition run (projects : list project) (timeout : Z * callback)
  : list project :=
  match timeout.2 with
  | Reveal index =>
      alter (fun p =>
               {| data_category := data_category p;
                  project_style :=
                    {| display := display (project_style p); opacity := "1";
                       transform := "translateY(0)" |} |})
        index projects
  | Remove index =>
      alter (fun p =>
               {| data_category := data_category p;
                  project_style :=
                    {| display := "none"; opacity := opacity (project_style p);
                       transform := transform (project_style p) |} |})
        index projects
  end.

(** The timeouts of the list run, in the order of the list. *)
Definition run_all (projects : list project) (timeouts : list (Z * callback))
  : list project :=
  foldl run projects timeouts.

End Filtering.

(** ** Scroll depth and throttling *)

Module Analytics.

(** [`${scrollPercent}%`], the label of the event sent to [gtag]. *)
Definition event_label (scrollPercent : Z) : string :=
  pretty scrollPercent +:+ "%".

(** The scroll handler of [initAnalytics], for a scroll position of
    [scrollPercent] percent ([None] when the quotient it is rounded from is
    not a finite number): the new [maxScroll] and the percentage of the
    event sent to [gtag], if one is sent. *)
Definition on_scroll (maxScroll : Z) (scrollPercent : option Z)
  : Z * option Z :=
  match scrollPercent with
  | Some percent =>
      if (percent >? maxScroll) && (Z.rem percent 25 =? 0) then
        (percent, Some percent)
      else (maxScroll, None)
  | None => (maxScroll, None)
  end.

(** The handler over the scroll positions it is called with: [maxScroll] at
    the end and the percentages reported, in order. *)
Fixpoint scrolls (maxScroll : Z) (positions : list (option Z)) : Z * list Z :=
  match positions with
  | [] => (maxScroll, [])
  | position :: rest =>
      let now := on_scroll maxScroll position in
      let later := scrolls now.1 rest in
      (later.1,
       match now.2 with
       | Some percent => percent :: later.2
       | None => later.2
       end)
  end.

End Analytics.

Module RafThrottle.

Section Throttled.

(** The arguments of the callback, the state it works on, and the callback
    itself: the state it leaves and what it throws, if it throws. *)
Variable Args State : Type.
Variable callback : Args -> State -> State * option js_error.

(** The closure [rafThrottle] returns: whether [requestId] is not [null],
    and the arguments of the call whose frame callback the browser still has
    to run. *)
Record throttle := {
  requested : bool;
  queued : option Args;
}.

Definition fresh : throttle := {| requested := false; queued := None |}.

(** The throttled function is called with [args]. *)
Definition call (args : Args) (t : throttle) : throttle :=
  if requested t then t
  else {| requested := true; queued := Some args |}.

(** An animation frame: the queued frame callback runs, if there is one.
    The result tells the throttle and the state afterwards, and what was
    thrown. *)
Definition frame (t : throttle) (s : State)
  : throttle * State * option js_error :=
  match queued t with
  | None => (t, s, None)
  | Some args =>
      match callback args s with
      | (s', None) => ({| requested := false; queued := None |}, s', None)
      | (s', Some e) =>
          ({| requested := requested t; queued := None |}, s', Some e)
      end
  end.

Inductive event :=
  | Call (args : Args)
  | Frame.

(** The throttle and the state after the events, with the arguments the
    callback was run with, in order. *)
Fixpoint events (l : list event) (t : throttle) (s : State)
  : throttle * State * list Args :=
  match l with
  | [] => (t, s, [])
  | Call args :: l => events l (call args t) s
  | Frame :: l =>
      let after := frame t s in
      let later := events l after.1.1 after.1.2 in
      (later.1.1, later.1.2,
       match queued t with
       | Some args => args :: later.2
       | None => later.2
       end)
  end.

(** The arguments the throttled function was called with, and the number
    of frames, in a list of events. *)
Fixpoint called (l : list event) : list Args :=
  match l with
  | [] => []
  | Call args :: l => args :: called l
  | Frame :: l => called l
  end.

Fixpoint frames (l : list event) : nat :=
  match l with
  | [] => 0
  | Call _ :: l => frames l
  | Frame :: l => S (frames l)
  end.

End Throttled.

End RafThrottle.

(** * Properties *)

(** ** getRepoSlug *)

Lemma is_hyphen_true c : is_hyphen c = true -> c = "-"%char.
Proof. unfold is_hyphen. by intros ?%Ascii.eqb_eq. Qed.

Lemma lower_or_digit_not_hyphen c :
  is_lower_or_digit c = true -> is_hyphen c = false.
Proof.
  intros Hc. destruct (is_hyphen c) eqn:Hh; [|done].
  apply is_hyphen_true in Hh. subst c. discriminate Hc.
Qed.

Lemma replace_runs_single_hyphens s : forall in_run,
  single_hyphens in_run (replace_runs in_run s) = true.
Proof.
  induction s as [|c r IH]; intros in_run; simpl; [done|].
  destruct (is_lower_or_digit c) eqn:Hc.
  - simpl. rewrite (lower_or_digit_not_hyphen c Hc), Hc. simpl. apply IH.
  - destruct in_run; [apply IH|]. simpl. apply IH.
Qed.

Lemma single_hyphens_weaken s b :
  single_hyphens true s = true -> single_hyphens b s = true.
Proof.
  destruct s as [|c r]; simpl; [done|].
  destruct (is_hyphen c); [done|]. by destruct b.
Qed.

Lemma single_hyphens_no_start s :
  single_hyphens false s = true -> starts_with_hyphen s = false ->
  single_hyphens true s = true.
Proof.
  destruct s as [|c r]; simpl; [done|].
  intros Hs Hc. by rewrite Hc in *.
Qed.

Lemma single_hyphens_cons b c r :
  single_hyphens b (String c r)
  = if is_hyphen c then negb b && single_hyphens true r
    else is_lower_or_digit c && single_hyphens false r.
Proof. reflexivity. Qed.

Lemma drop_last_hyphen_cons c d r :
  drop_last_hyphen (String c (String d r))
  = String c (drop_last_hyphen (String d r)).
Proof. reflexivity. Qed.

Lemma ends_with_hyphen_cons c s :
  ends_with_hyphen (String c s)
  = match s with EmptyString => is_hyphen c | _ => ends_with_hyphen s end.
Proof. by destruct s. Qed.

Lemma drop_last_hyphen_shape s : forall b,
  single_hyphens b s = true ->
  single_hyphens b (drop_last_hyphen s) = true
  /\ ends_with_hyphen (drop_last_hyphen s) = false.
Proof.
  induction s as [|c r IH]; intros b Hs; [done|].
  destruct r as [|d r'].
  - simpl in *. destruct (is_hyphen c) eqn:Hc; [done|].
    simpl. by rewrite Hc.
  - rewrite drop_last_hyphen_cons, ends_with_hyphen_cons.
    rewrite single_hyphens_cons in *.
    destruct (is_hyphen c) eqn:Hc;
      apply andb_true_iff in Hs as [Hb Hr];
      destruct (IH _ Hr) as [IH1 IH2]; rewrite Hb, IH1; split; try done.
    + destruct (drop_last_hyphen (String d r')) eqn:Hdrop; [|done].
      rewrite single_hyphens_cons in Hr.
      simpl in Hdrop. destruct r'; [|done].
      destruct (is_hyphen d); [done|discriminate Hdrop].
    + by destruct (drop_last_hyphen (String d r')).
Qed.

Lemma strip_edge_hyphens_shape s :
  single_hyphens false s = true ->
  single_hyphens true (strip_edge_hyphens s) = true
  /\ ends_with_hyphen (strip_edge_hyphens s) = false.
Proof.
  intros Hs. destruct s as [|c r]; [done|].
  unfold strip_edge_hyphens. destruct (is_hyphen c) eqn:Hc.
  - simpl in Hs. rewrite Hc in Hs. by apply drop_last_hyphen_shape.
  - apply drop_last_hyphen_shape, single_hyphens_no_start; [done|]. exact Hc.
Qed.

Lemma single_hyphens_slug_chars s : forall b,
  single_hyphens b s = true ->
  all_slug_chars s = true /\ has_double_hyphen s = false
  /\ (b = true -> starts_with_hyphen s = false).
Proof.
  induction s as [|c r IH]; intros b Hs; [done|].
  rewrite single_hyphens_cons in Hs. simpl. unfold slug_char.
  destruct (is_hyphen c) eqn:Hc;
    apply andb_true_iff in Hs as [Hb Hr];
    destruct (IH _ Hr) as (Hall & Hdouble & Hstart).
  - rewrite Hall, Hdouble, (Hstart eq_refl), orb_true_r.
    repeat split. intros ->. discriminate Hb.
  - by rewrite Hb, Hall, Hdouble.
Qed.

Lemma single_hyphens_is_slug s :
  single_hyphens true s = true -> ends_with_hyphen s = false ->
  is_slug s = true.
Proof.
  intros Hs Hend.
  destruct (single_hyphens_slug_chars s true Hs) as (Hall & Hdouble & Hstart).
  unfold is_slug. by rewrite Hall, Hdouble, Hend, (Hstart eq_refl).
Qed.

Lemma is_slug_single_hyphens s :
  is_slug s = true -> single_hyphens true s = true.
Proof.
  unfold is_slug. intros H.
  repeat (apply andb_true_iff in H as [H ?]).
  assert (Hgen : forall b, all_slug_chars s = true ->
    has_double_hyphen s = false -> (b = true -> starts_with_hyphen s = false) ->
    single_hyphens b s = true).
  { clear. induction s as [|c r IH]; intros b Hall Hdouble Hstart; [done|].
    simpl in *. unfold slug_char in Hall.
    apply andb_true_iff in Hall as [Hc Hall].
    apply orb_false_iff in Hdouble as [Hcr Hdouble].
    destruct (is_hyphen c) eqn:Hh.
    - simpl in Hcr. rewrite (IH true) by (done || by intros _).
      destruct b; [by specialize (Hstart eq_refl)|done].
    - rewrite orb_false_r in Hc. rewrite Hc. simpl.
      apply IH; [done..|discriminate]. }
  apply Hgen; [done|by apply negb_true_iff|by intros _; apply negb_true_iff].
Qed.

Lemma replace_runs_fixed s : forall b,
  single_hyphens b s = true -> replace_runs b s = s.
Proof.
  induction s as [|c r IH]; intros b Hs; [done|].
  rewrite single_hyphens_cons in Hs. simpl.
  destruct (is_hyphen c) eqn:Hc; apply andb_true_iff in Hs as [Hb Hr].
  - apply is_hyphen_true in Hc. subst c. simpl.
    destruct b; [done|]. by rewrite (IH true Hr).
  - rewrite Hb. by rewrite (IH false Hr).
Qed.

Lemma drop_last_hyphen_fixed s :
  ends_with_hyphen s = false -> drop_last_hyphen s = s.
Proof.
  induction s as [|c r IH]; [done|].
  destruct r as [|d r'].
  - simpl. by intros ->.
  - rewrite drop_last_hyphen_cons, ends_with_hyphen_cons. intros H.
    by rewrite IH.
Qed.

Lemma strip_edge_hyphens_fixed s :
  starts_with_hyphen s = false -> ends_with_hyphen s = false ->
  strip_edge_hyphens s = s.
Proof.
  destruct s as [|c r]; [done|]. unfold strip_edge_hyphens.
  intros Hstart Hend. simpl in Hstart. rewrite Hstart.
  by apply drop_last_hyphen_fixed.
Qed.

Lemma lower_ascii_slug_char c : slug_char c = true -> lower_ascii c = c.
Proof.
  unfold slug_char, lower_ascii, is_lower_or_digit. intros Hc.
  destruct (is_hyphen c) eqn:Hh.
  - apply is_hyphen_true in Hh. by subst c.
  - rewrite orb_false_r in Hc.
    destruct (Nat.leb_spec 65 (nat_of_ascii c)),
      (Nat.leb_spec (nat_of_ascii c) 90); simpl; try done.
    repeat match type of Hc with
    | context [(?a <=? ?b)%nat] => destruct (Nat.leb_spec a b)
    end; simpl in Hc; try done; lia.
Qed.

Lemma ascii_toLowerCase_slug s :
  all_slug_chars s = true -> ascii_toLowerCase s = s.
Proof.
  induction s as [|c r IH]; [done|]. simpl.
  intros [Hc Hr]%andb_true_iff. by rewrite lower_ascii_slug_char, IH.
Qed.

Section GetRepoSlug.

Variable toLowerCase : string -> string.

Lemma getRepoSlug_is_slug s : is_slug (getRepoSlug toLowerCase s) = true.
Proof.
  unfold getRepoSlug.
  destruct (strip_edge_hyphens_shape (replace_runs false (toLowerCase s)))
    as [Hshape Hend]; [apply replace_runs_single_hyphens|].
  by apply single_hyphens_is_slug.
Qed.

Lemma getRepoSlug_fixed s :
  toLowerCase s = s -> is_slug s = true -> getRepoSlug toLowerCase s = s.
Proof.
  intros Hlow Hslug. unfold getRepoSlug. rewrite Hlow.
  pose proof (is_slug_single_hyphens s Hslug) as Hshape.
  rewrite replace_runs_fixed by by apply single_hyphens_weaken.
  unfold is_slug in Hslug. repeat (apply andb_true_iff in Hslug as [Hslug ?]).
  apply strip_edge_hyphens_fixed; by apply negb_true_iff.
Qed.

(** C10.  Whatever the input, [getRepoSlug] returns a string of lowercase
    ASCII letters, digits and hyphens that neither starts nor ends with a
    hyphen and has no two hyphens in a row; and applying [getRepoSlug] to its
    own result changes nothing, [toLowerCase] leaving a string of such
    characters as it is. *)
Theorem getRepoSlug_slug_idempotent :
  (forall s, all_slug_chars s = true -> toLowerCase s = s) ->
  forall s,
    is_slug (getRepoSlug toLowerCase s) = true
    /\ getRepoSlug toLowerCase (getRepoSlug toLowerCase s)
       = getRepoSlug toLowerCase s.
Proof.
  intros Hlower s. pose proof (getRepoSlug_is_slug s) as Hslug.
  split; [done|]. apply getRepoSlug_fixed; [|done].
  apply Hlower. unfold is_slug in Hslug.
  by repeat (apply andb_true_iff in Hslug as [Hslug ?]).
Qed.

End GetRepoSlug.

Lemma getRepoSlug_slug_idempotent_witness :
  is_slug (getRepoSlug ascii_toLowerCase "E-learning-platform") = true
  /\ getRepoSlug ascii_toLowerCase
       (getRepoSlug ascii_toLowerCase "E-learning-platform")
     = getRepoSlug ascii_toLowerCase "E-learning-platform".
Proof.
  apply (getRepoSlug_slug_idempotent ascii_toLowerCase ascii_toLowerCase_slug).
Defined.

Example slug_fifa :
  getRepoSlug ascii_toLowerCase "Fifa-World-Cup-Qatar-2022"
  = "fifa-world-cup-qatar-2022".
Proof. reflexivity. Qed.

Example slug_edges :
  getRepoSlug ascii_toLowerCase "__My  Repo.js!!" = "my-repo-js".
Proof. reflexivity. Qed.

Example slug_only_punctuation :
  getRepoSlug ascii_toLowerCase "..." = EmptyString.
Proof. reflexivity. Qed.

Example ends_with_examples :
  ends_with "-stars" "adidas-stars" = true
  /\ ends_with "-stars" "stars" = false
  /\ ends_with "-forks" "adidas-forks-x" = false
  /\ is_stat_id "-forks" = true.
Proof. by vm_compute. Qed.

(** ** fetchGitHubRepos *)

Lemma request_settles fetch i repo :
  snd (request fetch i repo)
  = Fulfilled (default JNull (delivered fetch i repo)).
Proof.
  unfold request, delivered, on_response. simpl.
  destruct (fetch i (repo_url repo)) as [r|e]; simpl; [|done].
  destruct (ok r); [|done]. by destruct (json r) as [[]|].
Qed.

Lemma delivered_not_null fetch i repo : delivered fetch i repo ≠ Some JNull.
Proof.
  unfold delivered. destruct (fetch i (repo_url repo)) as [r|e]; [|done].
  destruct (ok r); [|done]. by destruct (json r) as [[]|].
Qed.

(** The join and the filter: every promise of the batch is fulfilled, and
    what the filter keeps is what the requests delivered, by position. *)
Lemma Promise_all_requests repos : forall fetch,
  exists results,
    Promise_all (snd <$> imap (request fetch) repos) = Fulfilled results
    /\ filter (fun result => result ≠ JNull) results
       = omap id (imap (delivered fetch) repos)
    /\ fst <$> imap (request fetch) repos = repo_url <$> repos.
Proof.
  induction repos as [|repo rest IH]; intros fetch.
  - by exists [].
  - destruct (IH (fun i => fetch (S i))) as (results & Hall & Hfilter & Hurls).
    exists (default JNull (delivered fetch 0 repo) :: results).
    rewrite !imap_cons, !fmap_cons, request_settles.
    change (request fetch ∘ S) with (request (fun i => fetch (S i))).
    change (delivered fetch ∘ S) with (delivered (fun i => fetch (S i))).
    simpl. rewrite Hall, Hurls. simpl. split_and!; [done| |done].
    pose proof (delivered_not_null fetch 0 repo) as Hnull.
    destruct (delivered fetch 0 repo) as [v|] eqn:Hv; simpl.
    + rewrite filter_cons_True by congruence. by rewrite Hfilter.
    + by rewrite filter_cons_False by (by intros []).
Qed.

Lemma fetch_hit fetch now repos st cached :
  cached_at st now = Some cached ->
  fetchGitHubRepos fetch now repos st
  = {| outcome := Fulfilled cached; requests := []; github_after := st |}.
Proof. unfold fetchGitHubRepos. by intros ->. Qed.

Lemma fetch_miss fetch now repos st :
  cached_at st now = None ->
  fetchGitHubRepos fetch now repos st
  = let validResults := omap id (imap (delivered fetch) repos) in
    {| outcome := Fulfilled validResults;
       requests := repo_url <$> repos;
       github_after :=
         {| cache := <["repositories" := validResults]> (cache st);
            lastFetch := now |} |}.
Proof.
  unfold fetchGitHubRepos. intros ->.
  destruct (Promise_all_requests repos fetch) as (results & -> & -> & ->).
  done.
Qed.

Lemma cached_at_Some st now cached :
  cached_at st now = Some cached <->
  now - lastFetch st < cacheDuration /\ cache st !! "repositories" = Some cached.
Proof.
  unfold cached_at. destruct (Z.ltb_spec (now - lastFetch st) cacheDuration).
  - split; [done|]. by intros [_ ?].
  - split; [done|]. intros [? _]. lia.
Qed.

Lemma cached_at_None st now :
  cached_at st now = None <->
  cacheDuration <= now - lastFetch st \/ cache st !! "repositories" = None.
Proof.
  unfold cached_at. destruct (Z.ltb_spec (now - lastFetch st) cacheDuration).
  - split; [by right|]. intros [?|?]; [lia|done].
  - split; [by left|done].
Qed.

Lemma fetch_outcome_cached fetch now repos st :
  exists l,
    outcome (fetchGitHubRepos fetch now repos st) = Fulfilled l
    /\ cache (github_after (fetchGitHubRepos fetch now repos st))
         !! "repositories" = Some l.
Proof.
  destruct (cached_at st now) as [cached|] eqn:Hc.
  - rewrite (fetch_hit _ _ _ _ _ Hc). simpl. exists cached.
    by apply cached_at_Some in Hc as [_ ?].
  - rewrite (fetch_miss _ _ _ _ Hc). simpl. eexists. split; [done|].
    by rewrite lookup_insert_eq.
Qed.

(** C1.  A second call in the cache window of the first one (less than
    [cacheDuration], five minutes, after the time stamp the first call left in
    [App.github]) requests nothing, and settles as the first call did; this
    for every list of names, answers of the network and state of the cache
    before the first call. *)
Theorem second_call_within_window fetch1 fetch2 now1 now2 repos1 repos2 st :
  let first := fetchGitHubRepos fetch1 now1 repos1 st in
  let second := fetchGitHubRepos fetch2 now2 repos2 (github_after first) in
  now2 - lastFetch (github_after first) < cacheDuration ->
  requests second = []
  /\ outcome second = outcome first
  /\ github_after second = github_after first.
Proof.
  intros first second Hwindow.
  destruct (fetch_outcome_cached fetch1 now1 repos1 st) as (l & Hout & Hcache).
  fold first in Hout, Hcache.
  assert (Hhit : cached_at (github_after first) now2 = Some l)
    by by apply cached_at_Some.
  unfold second. rewrite (fetch_hit _ _ _ _ _ Hhit). by rewrite Hout.
Qed.

Lemma second_call_within_window_witness :
  let fetch : nat -> string -> settled response :=
    fun _ _ => Fulfilled {| status := 200; json := Some JFalsy |} in
  let first := fetchGitHubRepos fetch 1700000000000 repositories App_github in
  let second :=
    fetchGitHubRepos fetch 1700000299999 repositories (github_after first) in
  requests first = repo_url <$> repositories
  /\ requests second = []
  /\ outcome second = outcome first
  /\ github_after second = github_after first.
Proof.
  split; [reflexivity|].
  apply (second_call_within_window _ _ 1700000000000 1700000299999
           repositories repositories App_github).
  reflexivity.
Defined.

Lemma lastFetch_after_fetch fetch now repos st :
  cached_at st now = None ->
  lastFetch (github_after (fetchGitHubRepos fetch now repos st)) = now.
Proof. intros Hmiss. by rewrite (fetch_miss _ _ _ _ Hmiss). Qed.

Lemma delivered_failed fetch i repo :
  failed (fetch i (repo_url repo)) = true -> delivered fetch i repo = None.
Proof.
  unfold failed, delivered. destruct (fetch i (repo_url repo)) as [r|e]; [|done].
  by destruct (ok r).
Qed.

Lemma omap_imap_None {A B} (f : nat -> A -> option B) (l : list A) :
  (forall i x, l !! i = Some x -> f i x = None) -> omap id (imap f l) = [].
Proof.
  revert f. induction l as [|x l IH]; intros f Hf; [done|].
  rewrite imap_cons. simpl. rewrite (Hf 0%nat x eq_refl). simpl.
  apply IH. intros i y Hy. apply (Hf (S i) y Hy).
Qed.

(** C2.  The promise of [fetchGitHubRepos] is never rejected; and when the
    call goes to the network and every one of its requests fails (no answer,
    or a status that is not a success), it is fulfilled with the empty
    array. *)
Theorem all_requests_failed_empty fetch now repos st :
  (exists validResults,
     outcome (fetchGitHubRepos fetch now repos st) = Fulfilled validResults)
  /\ (cached_at st now = None ->
      (forall i repo, repos !! i = Some repo ->
         failed (fetch i (repo_url repo)) = true) ->
      outcome (fetchGitHubRepos fetch now repos st) = Fulfilled []).
Proof.
  split.
  - destruct (fetch_outcome_cached fetch now repos st) as (l & Hl & _). eauto.
  - intros Hmiss Hfailed. rewrite (fetch_miss _ _ _ _ Hmiss). simpl.
    f_equal. apply omap_imap_None. intros i repo Hrepo.
    by apply delivered_failed, Hfailed.
Qed.

Lemma all_requests_failed_empty_witness :
  let fetch : nat -> string -> settled response :=
    fun i _ =>
      if Nat.even i then Rejected FetchFailed
      else Fulfilled {| status := 404; json := Some JFalsy |} in
  cached_at App_github 1700000000000 = None
  /\ outcome (fetchGitHubRepos fetch 1700000000000 repositories App_github)
     = Fulfilled [].
Proof.
  split; [reflexivity|].
  apply all_requests_failed_empty; [reflexivity|].
  intros i repo _. simpl. by destruct (Nat.even i).
Defined.

(** C8.  A call made when the cache window has run out, or when nothing is
    cached, requests each name of the list once, in the order of the list,
    at https://api.github.com/repos/karimhelal/<name>. *)
Theorem stale_call_requests_each_repo fetch now repos st :
  cacheDuration <= now - lastFetch st \/ cache st !! "repositories" = None ->
  requests (fetchGitHubRepos fetch now repos st)
  = (fun repo => "https://api.github.com/repos/karimhelal/" +:+ repo) <$> repos
  /\ length (requests (fetchGitHubRepos fetch now repos st)) = length repos.
Proof.
  intros Hstale%cached_at_None. rewrite (fetch_miss _ _ _ _ Hstale). simpl.
  split; [done|]. by rewrite length_fmap.
Qed.

Lemma stale_call_requests_each_repo_witness :
  let st := {| cache := {[ "repositories" := [JFalsy] ]};
               lastFetch := 1700000000000 |} in
  requests (fetchGitHubRepos (fun _ _ => Rejected FetchFailed)
              1700000300000 repositories st)
  = ["https://api.github.com/repos/karimhelal/Fifa-World-Cup-Qatar-2022";
     "https://api.github.com/repos/karimhelal/Adidas";
     "https://api.github.com/repos/karimhelal/Portfolio";
     "https://api.github.com/repos/karimhelal/datasets";
     "https://api.github.com/repos/karimhelal/E-learning-platform"]
  /\ length (requests (fetchGitHubRepos (fun _ _ => Rejected FetchFailed)
                         1700000300000 repositories st)) = 5%nat.
Proof.
  apply (stale_call_requests_each_repo _ 1700000300000 repositories).
  left. unfold cacheDuration. simpl. lia.
Defined.

(** What [omap id] keeps comes from strictly increasing positions of the
    list, and from every position that holds a value. *)
Lemma omap_positions {A} (l : list (option A)) :
  exists positions : list nat,
    StronglySorted lt positions
    /\ (forall i, i ∈ positions <-> exists x, l !! i = Some (Some x))
    /\ Forall2 (fun x i => l !! i = Some (Some x)) (omap id l) positions.
Proof.
  induction l as [|o l (positions & Hsorted & Hmem & Hall)].
  - exists []. split_and!; [constructor| |constructor].
    intros i. split; [by intros ?%elem_of_nil|by intros [? ?]].
  - assert (Hsorted' : StronglySorted lt (S <$> positions)).
    { eapply StronglySorted_fmap; [|done]. intros; lia. }
    assert (Hmem' : forall i,
      i ∈ S <$> positions <-> exists j x, i = S j /\ l !! j = Some (Some x)).
    { intros i. rewrite list_elem_of_fmap. split.
      - intros (j & -> & [x Hx]%Hmem). eauto.
      - intros (j & x & -> & Hx). exists j. split; [done|]. apply Hmem. eauto. }
    assert (Hall' : Forall2 (fun x i => (o :: l) !! i = Some (Some x))
                      (omap id l) (S <$> positions)).
    { apply Forall2_fmap_r. eapply Forall2_impl; [done|]. by intros. }
    destruct o as [x|]; simpl.
    + exists (0%nat :: (S <$> positions)). split_and!.
      * constructor; [done|]. apply Forall_fmap, Forall_true. simpl. lia.
      * intros i. rewrite elem_of_cons, Hmem'. split.
        -- intros [->|(j & y & -> & Hy)]; simpl; eauto.
        -- destruct i as [|j]; [by left|]. simpl. intros [y Hy]. right. eauto.
      * by constructor.
    + exists (S <$> positions). split_and!; [done| |done].
      intros i. rewrite Hmem'. split.
      * intros (j & y & -> & Hy). simpl. eauto.
      * destruct i as [|j]; simpl; [by intros [? ?]|]. intros [y Hy]. eauto.
Qed.

Lemma imap_delivered_lookup fetch repos i v :
  imap (delivered fetch) repos !! i = Some (Some v)
  <-> exists repo, repos !! i = Some repo /\ delivered fetch i repo = Some v.
Proof.
  rewrite list_lookup_imap. destruct (repos !! i) as [repo|]; simpl.
  - split; [intros [= ?]; eauto|]. by intros (? & [= <-] & ->).
  - split; [done|]. by intros (? & ? & _).
Qed.

(** C9.  For every list of names and every way the requests settle, the
    array a fetching call returns holds what the requests delivered, taken
    from strictly increasing positions of the list of names: each request
    that delivered a value is there, and in the order of the names. *)
Theorem fetch_keeps_input_order fetch now repos st :
  cached_at st now = None ->
  exists validResults positions,
    outcome (fetchGitHubRepos fetch now repos st) = Fulfilled validResults
    /\ StronglySorted lt positions
    /\ (forall i, i ∈ positions <->
          exists repo v, repos !! i = Some repo
                         /\ delivered fetch i repo = Some v)
    /\ Forall2 (fun v i =>
                  exists repo, repos !! i = Some repo
                               /\ delivered fetch i repo = Some v)
         validResults positions.
Proof.
  intros Hmiss. rewrite (fetch_miss _ _ _ _ Hmiss). simpl.
  destruct (omap_positions (imap (delivered fetch) repos))
    as (positions & Hsorted & Hmem & Hall).
  exists (omap id (imap (delivered fetch) repos)), positions.
  split_and!; [done..| |].
  - intros i. rewrite Hmem. split.
    + intros [v (repo & ? & ?)%imap_delivered_lookup]. eauto.
    + intros (repo & v & ? & ?). exists v. apply imap_delivered_lookup. eauto.
  - eapply Forall2_impl; [done|]. intros v i. apply imap_delivered_lookup.
Qed.

Lemma fetch_keeps_input_order_witness :
  let repo n := JObject {| name := Some n; stargazers_count := Some 5;
                           forks_count := Some 2; updated_at := None |} in
  let fetch : nat -> string -> settled response :=
    fun i _ =>
      if Nat.even i then Fulfilled {| status := 200; json := Some (repo (pretty i)) |}
      else Rejected FetchFailed in
  exists validResults positions,
    outcome (fetchGitHubRepos fetch 1700000000000 repositories App_github)
    = Fulfilled validResults
    /\ StronglySorted lt positions
    /\ (forall i, i ∈ positions <->
          exists repo v, repositories !! i = Some repo
                         /\ delivered fetch i repo = Some v)
    /\ Forall2 (fun v i =>
                  exists repo, repositories !! i = Some repo
                               /\ delivered fetch i repo = Some v)
         validResults positions.
Proof.
  intros repo fetch.
  apply (fetch_keeps_input_order fetch 1700000000000 repositories App_github).
  reflexivity.
Defined.

Example fetch_one_of_two :
  let a := JObject {| name := Some "A"; stargazers_count := Some 5;
                      forks_count := Some 2; updated_at := None |} in
  let fetch : nat -> string -> settled response :=
    fun i _ =>
      match i with
      | O => Fulfilled {| status := 200; json := Some a |}
      | _ => Fulfilled {| status := 503; json := None |}
      end in
  outcome (fetchGitHubRepos fetch 1700000000000 ["A"; "B"] App_github)
  = Fulfilled [a].
Proof. reflexivity. Qed.

(** ** The cache as a state machine *)

Lemma is_fresh_true st t :
  is_fresh st t = true <->
  t - lastFetch st < cacheDuration /\ is_Some (cache st !! "repositories").
Proof.
  unfold is_fresh. rewrite bool_decide_eq_true. split.
  - intros [l Hl]. apply cached_at_Some in Hl as [? Hl]. by rewrite Hl.
  - intros [? [l Hl]]. exists l. by apply cached_at_Some.
Qed.

Lemma is_fresh_false st t :
  is_fresh st t = false <->
  cacheDuration <= t - lastFetch st \/ cache st !! "repositories" = None.
Proof.
  unfold is_fresh. rewrite bool_decide_eq_false, <- cached_at_None.
  rewrite <- eq_None_not_Some. done.
Qed.

(** No call makes a fresh cache stale: a call in the window changes
    nothing, and a call that stores a batch stores a later time stamp. *)
Lemma call_keeps_fresh fetch now repos st t :
  is_fresh st t = true ->
  is_fresh (github_after (fetchGitHubRepos fetch now repos st)) t = true.
Proof.
  intros Hfresh. destruct (cached_at st now) as [cached|] eqn:Hc.
  - by rewrite (fetch_hit _ _ _ _ _ Hc).
  - rewrite (fetch_miss _ _ _ _ Hc). simpl.
    apply is_fresh_true in Hfresh as [Hwindow [l Hl]].
    apply cached_at_None in Hc as [Hout|Hnone]; [|congruence].
    apply is_fresh_true. simpl. rewrite lookup_insert_eq.
    split; [unfold cacheDuration in *; lia|done].
Qed.

Lemma calls_keep_fresh st st' t :
  calls st st' -> is_fresh st t = true -> is_fresh st' t = true.
Proof.
  induction 1 as [|st st' fetch now repos _ IH]; [done|].
  intros Hfresh. by apply call_keeps_fresh, IH.
Qed.

(** C4.  A completed fetch makes the cache fresh, whatever the result and
    also when it is empty: until [cacheDuration] has passed since the time
    stamp of the fetch, a call requests nothing and is answered with that
    result.  And a fresh cache becomes stale by the passing of time only:
    after any calls, the cache that was fresh at [t] can be stale at [t']
    only when [t'] is later than [t] and at least [cacheDuration] after the
    last fetch. *)
Theorem cache_fresh_until_window_ends fetch now repos st :
  cached_at st now = None ->
  let call := fetchGitHubRepos fetch now repos st in
  (forall t, t - now < cacheDuration ->
     is_fresh (github_after call) t = true
     /\ forall fetch' repos',
          let again := fetchGitHubRepos fetch' t repos' (github_after call) in
          requests again = [] /\ outcome again = outcome call)
  /\ (forall st' t t',
        calls (github_after call) st' ->
        is_fresh (github_after call) t = true ->
        is_fresh st' t' = false ->
        t < t' /\ cacheDuration <= t' - lastFetch st').
Proof.
  intros Hmiss call. split.
  - intros t Ht.
    pose proof (lastFetch_after_fetch fetch now repos st Hmiss) as Hlast.
    fold call in Hlast. split.
    + apply is_fresh_true. rewrite Hlast. split; [done|].
      destruct (fetch_outcome_cached fetch now repos st) as (l & _ & Hl).
      fold call in Hl. by rewrite Hl.
    + intros fetch' repos'.
      destruct (fetch_outcome_cached fetch now repos st) as (l & Hout & Hl).
      fold call in Hout, Hl.
      assert (Hhit : cached_at (github_after call) t = Some l).
      { apply cached_at_Some. by rewrite Hlast. }
      rewrite (fetch_hit _ _ _ _ _ Hhit). by rewrite Hout.
  - intros st' t t' Hcalls Hfresh Hstale.
    pose proof (calls_keep_fresh _ _ _ Hcalls Hfresh) as Hfresh'.
    apply is_fresh_true in Hfresh' as [Hwindow [l Hl]].
    apply is_fresh_false in Hstale as [Hout|Hnone]; [lia|congruence].
Qed.

Lemma cache_fresh_until_window_ends_witness :
  let fetch : nat -> string -> settled response :=
    fun _ _ => Rejected FetchFailed in
  let call := fetchGitHubRepos fetch 1700000000000 repositories App_github in
  outcome call = Fulfilled []
  /\ (forall t, t - 1700000000000 < cacheDuration ->
        is_fresh (github_after call) t = true
        /\ forall fetch' repos',
             let again :=
               fetchGitHubRepos fetch' t repos' (github_after call) in
             requests again = [] /\ outcome again = outcome call)
  /\ (forall st' t t',
        calls (github_after call) st' ->
        is_fresh (github_after call) t = true ->
        is_fresh st' t' = false ->
        t < t' /\ cacheDuration <= t' - lastFetch st').
Proof.
  split; [reflexivity|].
  apply (cache_fresh_until_window_ends _ 1700000000000 repositories App_github).
  reflexivity.
Defined.

(** What the cache holds in a state that calls lead to: nothing, or one
    batch under the key "repositories". *)
Lemma reachable_cache st :
  reachable st ->
  cache st = ∅ \/ exists batch, cache st = {[ "repositories" := batch ]}.
Proof.
  unfold reachable. remember App_github as st0 eqn:Hst0.
  induction 1 as [|st st' fetch now repos _ IH]; [subst; by left|].
  destruct (cached_at st' now) as [cached|] eqn:Hc.
  - rewrite (fetch_hit _ _ _ _ _ Hc). by apply IH.
  - rewrite (fetch_miss _ _ _ _ Hc). simpl. right. eexists.
    destruct (IH Hst0) as [->|[batch ->]].
    + apply insert_empty.
    + apply insert_singleton_eq.
Qed.

(** C5.  In every state that calls of [fetchGitHubRepos] lead to from the
    initial [App.github], the cache holds at most one entry, and no entry
    under another key than "repositories" (so none per repository); and a
    call that fetches leaves exactly one entry, the batch it returns, with
    nothing left of the entry before. *)
Theorem single_cache_entry st :
  reachable st ->
  (size (cache st) <= 1)%nat
  /\ (forall key, key ≠ "repositories" -> cache st !! key = None)
  /\ (forall fetch now repos,
        cached_at st now = None ->
        let call := fetchGitHubRepos fetch now repos st in
        exists validResults,
          outcome call = Fulfilled validResults
          /\ cache (github_after call) = {[ "repositories" := validResults ]}).
Proof.
  intros Hreach. pose proof (reachable_cache st Hreach) as Hcache.
  split_and!.
  - destruct Hcache as [->|[batch ->]].
    + rewrite map_size_empty. lia.
    + by rewrite map_size_singleton.
  - intros key Hkey. destruct Hcache as [->|[batch ->]].
    + apply lookup_empty.
    + by apply lookup_singleton_ne.
  - intros fetch now repos Hmiss call. unfold call.
    rewrite (fetch_miss _ _ _ _ Hmiss). simpl. eexists. split; [done|].
    destruct Hcache as [->|[batch ->]].
    + apply insert_empty.
    + apply insert_singleton_eq.
Qed.

Lemma single_cache_entry_witness :
  let fetch : nat -> string -> settled response :=
    fun _ _ => Fulfilled {| status := 200; json := Some JFalsy |} in
  let st := github_after
              (fetchGitHubRepos fetch 1700000000000 repositories App_github) in
  (size (cache st) <= 1)%nat
  /\ (forall key, key ≠ "repositories" -> cache st !! key = None)
  /\ (forall fetch now repos,
        cached_at st now = None ->
        let call := fetchGitHubRepos fetch now repos st in
        exists validResults,
          outcome call = Fulfilled validResults
          /\ cache (github_after call) = {[ "repositories" := validResults ]}).
Proof.
  intros fetch st. apply (single_cache_entry st).
  apply calls_more, calls_none.
Defined.

(** ** No [null] in the cache *)

Lemma delivered_values_not_null fetch repos :
  JNull ∉ omap id (imap (delivered fetch) repos).
Proof.
  intros (o & Ho & Hid)%list_elem_of_omap. simpl in Hid. subst o.
  apply elem_of_lookup_imap in Ho as (i & repo & Hd & _).
  by eapply delivered_not_null.
Qed.

Lemma call_keeps_no_null fetch now repos st :
  (forall l, cache st !! "repositories" = Some l -> JNull ∉ l) ->
  forall l,
    cache (github_after (fetchGitHubRepos fetch now repos st))
      !! "repositories" = Some l ->
    JNull ∉ l.
Proof.
  intros Hst l. destruct (cached_at st now) as [cached|] eqn:Hc.
  - rewrite (fetch_hit _ _ _ _ _ Hc). apply Hst.
  - rewrite (fetch_miss _ _ _ _ Hc). simpl. rewrite lookup_insert_eq.
    intros [= <-]. apply delivered_values_not_null.
Qed.

Lemma reachable_no_null st :
  reachable st -> forall l, cache st !! "repositories" = Some l -> JNull ∉ l.
Proof.
  unfold reachable. remember App_github as st0 eqn:Hst0.
  induction 1 as [|st st' fetch now repos _ IH].
  - subst. intros l. simpl. by rewrite lookup_empty.
  - by apply call_keeps_no_null, IH.
Qed.

(** ** Rendering *)

Lemma fold_left_count field repoData : forall sum : settled Z,
  fold_left
    (fun sum repo =>
       then_ sum (fun sum =>
       then_ (count_of field repo) (fun count => Fulfilled (sum + count))))
    repoData sum
  = then_ sum (fun sum =>
      if decide (JNull ∈ repoData) then Rejected TypeError
      else Fulfilled (sum + sum_counts field repoData)).
Proof.
  induction repoData as [|repo rest IH]; intros [sum|e];
    cbn [fold_left then_ sum_counts].
  - rewrite decide_False by apply not_elem_of_nil. f_equal. lia.
  - done.
  - rewrite IH. destruct repo as [| |r]; cbn [count_of then_ prop_of or_zero].
    + by rewrite decide_True by left.
    + destruct (decide (JNull ∈ rest)) as [Hin|Hout].
      * by rewrite decide_True by (by right).
      * rewrite decide_False by (by intros [?|?]%elem_of_cons). f_equal. lia.
    + destruct (decide (JNull ∈ rest)) as [Hin|Hout].
      * by rewrite decide_True by (by right).
      * rewrite decide_False by (by intros [?|?]%elem_of_cons). f_equal.
        unfold or_zero. destruct (field r); lia.
  - by rewrite IH.
Qed.

Lemma reduce_count_sum field repoData :
  reduce_count field repoData
  = if decide (JNull ∈ repoData) then Rejected TypeError
    else Fulfilled (sum_counts field repoData).
Proof.
  unfold reduce_count. rewrite fold_left_count. cbn [then_]. by case_decide.
Qed.


Lemma updateGitHubStats_null repoData doc :
  JNull ∈ repoData -> updateGitHubStats repoData doc = Rejected TypeError.
Proof.
  intros Hnull. unfold updateGitHubStats.
  by rewrite !reduce_count_sum, !decide_True by done.
Qed.

Section RenderingFacts.

Variable toLowerCase : string -> string.
Variable elapsed_since : string -> option Z.

#[local] Abbreviation project_stats_of := (project_stats_of toLowerCase elapsed_since).
#[local] Abbreviation forEach_from := (forEach_from toLowerCase elapsed_since).
#[local] Abbreviation updateProjectStats := (updateProjectStats toLowerCase elapsed_since).
#[local] Abbreviation getRepoSlug := (getRepoSlug toLowerCase).

Lemma then_Fulfilled {A B} (p : settled A) (f : A -> settled B) b :
  then_ p f = Fulfilled b -> exists a, p = Fulfilled a /\ f a = Fulfilled b.
Proof. destruct p as [a|e]; [|done]. simpl. eauto. Qed.

Lemma addLastUpdatedInfo_by_id card updatedAt :
  by_id (addLastUpdatedInfo elapsed_since card updatedAt) = by_id card.
Proof.
  unfold addLastUpdatedInfo. destruct updatedAt as [[|c date]|]; [done| |done].
  destruct (last_updated card); [done|]. by destruct (project_content card).
Qed.

Lemma stat_ids_differ slug : slug +:+ "-stars" ≠ slug +:+ "-forks".
Proof. by intros ?%String.app_inj. Qed.

(** What the loop leaves outside the card of the current index. *)
Lemma project_stats_of_frame repo index doc doc' :
  project_stats_of repo index doc = Fulfilled doc' ->
  github_stats doc' = github_stats doc
  /\ elsewhere doc' = elsewhere doc
  /\ forall i, i ≠ index -> project_cards doc' !! i = project_cards doc !! i.
Proof.
  unfold project_stats_of. destruct repo as [| |r]; try by intros [= <-].
  destruct (project_cards doc !! index) as [card|]; [|by intros [= <-]].
  destruct (name r) as [repo_name|]; [|done].
  intros (starsElement & _ & (forksElement & _ & [= <-])%then_Fulfilled)
    %then_Fulfilled.
  simpl. split_and!; [done..|]. intros i Hi. by rewrite list_lookup_insert_ne.
Qed.

Lemma forEach_from_frame repoData : forall index doc doc' thrown,
  forEach_from index repoData doc = (doc', thrown) ->
  github_stats doc' = github_stats doc
  /\ elsewhere doc' = elsewhere doc
  /\ forall i, (i < index)%nat -> project_cards doc' !! i = project_cards doc !! i.
Proof.
  induction repoData as [|repo rest IH]; intros index doc doc' thrown; simpl.
  - by intros [= <- _].
  - destruct (project_stats_of repo index doc) as [doc1|e] eqn:Hstep;
      [|by intros [= <- _]].
    intros (Hstats & Helse & Hcards)%IH.
    destruct (project_stats_of_frame _ _ _ _ Hstep) as (Hstats1 & Helse1 & Hcards1).
    split_and!; [congruence..|].
    intros i Hi. rewrite Hcards by lia. apply Hcards1. lia.
Qed.

(** What the callback does to the stat elements of the card of its
    repository. *)
Lemma project_stats_of_card r index doc doc' repo_name card :
  project_stats_of (JObject r) index doc = Fulfilled doc' ->
  name r = Some repo_name ->
  project_cards doc !! index = Some card ->
  exists card',
    project_cards doc' !! index = Some card'
    /\ (forall e, by_id card !! (getRepoSlug repo_name +:+ "-stars") = Some e ->
          by_id card' !! (getRepoSlug repo_name +:+ "-stars")
          = Some {| textContent := textContent e;
                    animating := Some (or_zero (stargazers_count r)) |})
    /\ (forall e, by_id card !! (getRepoSlug repo_name +:+ "-forks") = Some e ->
          by_id card' !! (getRepoSlug repo_name +:+ "-forks")
          = Some {| textContent := textContent e;
                    animating := Some (or_zero (forks_count r)) |}).
Proof.
  unfold project_stats_of. intros Hstep Hname Hcard.
  rewrite Hcard, Hname in Hstep.
  apply then_Fulfilled in Hstep as (starsElement & Hstars & Hstep).
  apply then_Fulfilled in Hstep as (forksElement & Hforks & [= <-]).
  unfold querySelector_id in Hstars, Hforks.
  destruct (valid_id_selector _) in Hstars; [|done].
  destruct (valid_id_selector _) in Hforks; [|done].
  injection Hstars as <-. injection Hforks as <-.
  eexists. simpl. split.
  { apply list_lookup_insert_eq. by eapply lookup_lt_Some. }
  rewrite !addLastUpdatedInfo_by_id.
  pose proof (stat_ids_differ (getRepoSlug repo_name)) as Hids.
  split; intros e He; rewrite ?He.
  - destruct (by_id card !! (getRepoSlug repo_name +:+ "-forks")) as [e'|];
      simpl.
    + rewrite lookup_insert_ne by done. by rewrite lookup_insert_eq.
    + by rewrite lookup_insert_eq.
  - simpl. destruct (by_id card !! (getRepoSlug repo_name +:+ "-stars"));
      simpl; by rewrite lookup_insert_eq.
Qed.

Lemma forEach_from_card repoData : forall index doc doc' k r repo_name card,
  forEach_from index repoData doc = (doc', None) ->
  repoData !! k = Some (JObject r) ->
  name r = Some repo_name ->
  project_cards doc !! (index + k)%nat = Some card ->
  exists card',
    project_cards doc' !! (index + k)%nat = Some card'
    /\ (forall e, by_id card !! (getRepoSlug repo_name +:+ "-stars") = Some e ->
          by_id card' !! (getRepoSlug repo_name +:+ "-stars")
          = Some {| textContent := textContent e;
                    animating := Some (or_zero (stargazers_count r)) |})
    /\ (forall e, by_id card !! (getRepoSlug repo_name +:+ "-forks") = Some e ->
          by_id card' !! (getRepoSlug repo_name +:+ "-forks")
          = Some {| textContent := textContent e;
                    animating := Some (or_zero (forks_count r)) |}).
Proof.
  induction repoData as [|repo rest IH];
    intros index doc doc' k r repo_name card Hloop Hk Hname Hcard; [done|].
  simpl in Hloop.
  destruct (project_stats_of repo index doc) as [doc1|e] eqn:Hstep; [|done].
  destruct k as [|k]; simpl in Hk.
  - injection Hk as ->. rewrite Nat.add_0_r in *.
    destruct (project_stats_of_card _ _ _ _ _ _ Hstep Hname Hcard)
      as (card' & Hcard' & Hshown).
    exists card'. split; [|done].
    destruct (forEach_from_frame _ _ _ _ _ Hloop) as (_ & _ & Hframe).
    by rewrite Hframe by lia.
  - replace (index + S k)%nat with (S index + k)%nat in * by lia.
    eapply IH; [done..|].
    destruct (project_stats_of_frame _ _ _ _ Hstep) as (_ & _ & Hframe).
    by rewrite Hframe by lia.
Qed.

(** The same, with the elements the card does not have. *)
Lemma project_stats_of_shown r index doc doc' repo_name card :
  project_stats_of (JObject r) index doc = Fulfilled doc' ->
  name r = Some repo_name ->
  project_cards doc !! index = Some card ->
  exists card',
    project_cards doc' !! index = Some card'
    /\ by_id card' !! (getRepoSlug repo_name +:+ "-stars")
       = (fun e => {| textContent := textContent e;
                      animating := Some (or_zero (stargazers_count r)) |})
         <$> by_id card !! (getRepoSlug repo_name +:+ "-stars")
    /\ by_id card' !! (getRepoSlug repo_name +:+ "-forks")
       = (fun e => {| textContent := textContent e;
                      animating := Some (or_zero (forks_count r)) |})
         <$> by_id card !! (getRepoSlug repo_name +:+ "-forks").
Proof.
  unfold project_stats_of. intros Hstep Hname Hcard.
  rewrite Hcard, Hname in Hstep.
  apply then_Fulfilled in Hstep as (starsElement & Hstars & Hstep).
  apply then_Fulfilled in Hstep as (forksElement & Hforks & [= <-]).
  unfold querySelector_id in Hstars, Hforks.
  destruct (valid_id_selector _) in Hstars; [|done].
  destruct (valid_id_selector _) in Hforks; [|done].
  injection Hstars as <-. injection Hforks as <-.
  eexists. simpl. split.
  { apply list_lookup_insert_eq. by eapply lookup_lt_Some. }
  rewrite !addLastUpdatedInfo_by_id.
  pose proof (stat_ids_differ (getRepoSlug repo_name)) as Hids.
  destruct (by_id card !! (getRepoSlug repo_name +:+ "-stars")) as [e1|] eqn:H1;
    destruct (by_id card !! (getRepoSlug repo_name +:+ "-forks")) as [e2|] eqn:H2;
    simpl; split;
    rewrite ?lookup_insert_eq, ?lookup_insert_ne by done;
    rewrite ?lookup_insert_eq, ?H1, ?H2; done.
Qed.

(** The stat elements of a repository that the loop gets past, when the
    loop has ended or thrown. *)
Lemma forEach_from_reached repoData : forall index doc k r repo_name card,
  (forEach_from index (take (S k) repoData) doc).2 = None ->
  repoData !! k = Some (JObject r) ->
  name r = Some repo_name ->
  project_cards doc !! (index + k)%nat = Some card ->
  exists card',
    project_cards (forEach_from index repoData doc).1 !! (index + k)%nat
    = Some card'
    /\ by_id card' !! (getRepoSlug repo_name +:+ "-stars")
       = (fun e => {| textContent := textContent e;
                      animating := Some (or_zero (stargazers_count r)) |})
         <$> by_id card !! (getRepoSlug repo_name +:+ "-stars")
    /\ by_id card' !! (getRepoSlug repo_name +:+ "-forks")
       = (fun e => {| textContent := textContent e;
                      animating := Some (or_zero (forks_count r)) |})
         <$> by_id card !! (getRepoSlug repo_name +:+ "-forks").
Proof.
  induction repoData as [|repo rest IH];
    intros index doc k r repo_name card Hpast Hk Hname Hcard; [done|].
  simpl in Hpast |- *.
  destruct (project_stats_of repo index doc) as [doc1|e] eqn:Hstep; [|done].
  destruct k as [|k]; simpl in Hk.
  - injection Hk as ->. rewrite Nat.add_0_r in *.
    destruct (project_stats_of_shown _ _ _ _ _ _ Hstep Hname Hcard)
      as (card' & Hcard' & Hshown).
    exists card'. split; [|done].
    destruct (forEach_from (S index) rest doc1) as [doc2 thrown] eqn:Hloop.
    destruct (forEach_from_frame _ _ _ _ _ Hloop) as (_ & _ & Hframe).
    simpl. by rewrite Hframe by lia.
  - replace (index + S k)%nat with (S index + k)%nat in * by lia.
    eapply IH; [done..|].
    destruct (project_stats_of_frame _ _ _ _ Hstep) as (_ & _ & Hframe).
    by rewrite Hframe by lia.
Qed.

End RenderingFacts.



(** A call inside the cache window renders the totals of the cached batch
    again, into a container that something else has written since. *)
Example totals_rendered_again :
  let a := JObject {| name := Some "Adidas"; stargazers_count := Some 5;
                      forks_count := Some 2; updated_at := None |} in
  let fetch : nat -> string -> settled response :=
    fun _ _ => Fulfilled {| status := 200; json := Some a |} in
  let first :=
    initGitHubIntegration ascii_toLowerCase (fun _ => None) fetch
      1700000000000 App_github static_page in
  let second :=
    initGitHubIntegration ascii_toLowerCase (fun _ => None) network_down
      1700000060000 first.1
      {| project_cards := project_cards first.2;
         github_stats := Some "loading";
         elsewhere := elsewhere first.2 |} in
  github_stats second.2 = github_stats first.2
  /\ github_stats second.2 = Some (stats_html 25 10 5).
Proof. split; by vm_compute. Qed.

Lemma sum_counts_delete field repoData : forall i repo,
  repoData !! i = Some repo -> prop_of field repo = None ->
  sum_counts field repoData = sum_counts field (delete i repoData).
Proof.
  induction repoData as [|x rest IH]; intros i repo Hi Hnone; [done|].
  destruct i as [|i]; simpl in *.
  - injection Hi as ->. by rewrite Hnone.
  - by rewrite (IH i repo).
Qed.

Lemma elem_of_delete_object (repoData : list js_value) i r :
  repoData !! i = Some (JObject r) ->
  JNull ∈ delete i repoData <-> JNull ∈ repoData.
Proof.
  revert i. induction repoData as [|x rest IH]; intros i Hi; [done|].
  destruct i as [|i]; simpl in *.
  - injection Hi as ->. rewrite elem_of_cons. split; [by right|].
    by intros [?|?].
  - rewrite !elem_of_cons. by rewrite (IH i Hi).
Qed.

(** C7, as the code has it.  A repository object without
    [stargazers_count] adds 0 to the total, and 0 is what is shown for it
    where its count is shown at all: in the stars element of the card at the
    position the repository has in the batch, when that card has the
    element and the loop of [updateProjectStats] gets past the repository;
    this whether the loop ends or throws later.  The same holds of
    [forks_count] and the forks element. *)
Theorem missing_count_shown_as_zero toLowerCase elapsed_since
    repoData doc i r repo_name card :
  repoData !! i = Some (JObject r) ->
  name r = Some repo_name ->
  project_cards doc !! i = Some card ->
  (updateProjectStats toLowerCase elapsed_since (take (S i) repoData) doc).2
  = None ->
  let doc' := (updateProjectStats toLowerCase elapsed_since repoData doc).1 in
  let shows_zero (id : string) :=
    (fun card' => displayed <$> by_id card' !! id) <$> project_cards doc' !! i
    = Some ((fun _ => "0") <$> by_id card !! id) in
  let adds_nothing (field : repo_fields -> option Z) :=
    reduce_count field repoData
    = if decide (JNull ∈ repoData) then Rejected TypeError
      else Fulfilled (sum_counts field (delete i repoData)) in
  (stargazers_count r = None ->
     shows_zero (getRepoSlug toLowerCase repo_name +:+ "-stars")
     /\ adds_nothing stargazers_count)
  /\ (forks_count r = None ->
        shows_zero (getRepoSlug toLowerCase repo_name +:+ "-forks")
        /\ adds_nothing forks_count).
Proof.
  intros Hi Hname Hcard Hpast doc' shows_zero adds_nothing.
  destruct (forEach_from_reached toLowerCase elapsed_since repoData 0 doc i
              r repo_name card Hpast Hi Hname Hcard)
    as (card' & Hcard' & Hstars & Hforks).
  simpl in Hcard'.
  assert (Hsum : forall field, field r = None ->
            reduce_count field repoData
            = if decide (JNull ∈ repoData) then Rejected TypeError
              else Fulfilled (sum_counts field (delete i repoData))).
  { intros field Hnone. rewrite reduce_count_sum.
    by rewrite <- (sum_counts_delete field repoData i (JObject r)). }
  split; intros Hnone; (split; [|by apply Hsum]);
    unfold shows_zero, doc', updateProjectStats.
  - rewrite Hcard'. simpl. rewrite Hstars, Hnone. f_equal.
    match goal with |- context [?m !! ?k] => destruct (m !! k) end;
      reflexivity.
  - rewrite Hcard'. simpl. rewrite Hforks, Hnone. f_equal.
    match goal with |- context [?m !! ?k] => destruct (m !! k) end;
      reflexivity.
Qed.

Lemma missing_count_shown_as_zero_witness :
  let fifa := {| name := Some "Fifa-World-Cup-Qatar-2022";
                 stargazers_count := Some 7; forks_count := Some 1;
                 updated_at := None |} in
  let adidas := {| name := Some "Adidas"; stargazers_count := None;
                   forks_count := None;
                   updated_at := Some "2024-01-01T00:00:00Z" |} in
  let nameless := {| name := None; stargazers_count := Some 3;
                     forks_count := Some 2; updated_at := None |} in
  let repoData := [JObject fifa; JObject adidas; JObject nameless] in
  let shown (doc : document) (id : string) :=
    (fun card => displayed <$> by_id card !! id) <$> project_cards doc !! 1%nat in
  let doc' :=
    (updateProjectStats ascii_toLowerCase (fun _ => None) repoData
       static_page).1 in
  (shown static_page "adidas-stars" = Some (Some "12")
   /\ shown doc' "adidas-stars" = Some (Some "0")
   /\ reduce_count stargazers_count repoData = Fulfilled 10)
  /\ (shown static_page "adidas-forks" = Some (Some "4")
      /\ shown doc' "adidas-forks" = Some (Some "0")
      /\ reduce_count forks_count repoData = Fulfilled 3).
Proof.
  intros fifa adidas nameless repoData shown doc'.
  destruct (missing_count_shown_as_zero ascii_toLowerCase (fun _ => None)
              repoData static_page 1 adidas "Adidas"
              (static_card "adidas" "12" "4")
              eq_refl eq_refl eq_refl ltac:(vm_compute; reflexivity))
    as [Hstars Hforks].
  destruct (Hstars eq_refl) as [Hshown1 Hsum1].
  destruct (Hforks eq_refl) as [Hshown2 Hsum2].
  vm_compute in Hshown1, Hsum1, Hshown2, Hsum2 |- *. done.
Defined.

(** C7, as the claim states it, fails: the value shown for the star count
    of a repository whose answer has no [stargazers_count] is not 0 when
    the card at the position the repository has in the batch is not its
    card (here the request before it failed, so that Adidas comes first and
    meets the card of the first repository), or when the loop throws before
    it gets to the repository (here on an answer without a name).  The
    element of the repository keeps its text, or gets the placeholder. *)
Lemma missing_count_not_shown :
  let adidas := JObject {| name := Some "Adidas"; stargazers_count := None;
                           forks_count := Some 2; updated_at := None |} in
  let nameless := JObject {| name := None; stargazers_count := Some 3;
                             forks_count := Some 2; updated_at := None |} in
  let shifted : nat -> string -> settled response :=
    fun i _ =>
      match i with
      | 1%nat => Fulfilled {| status := 200; json := Some adidas |}
      | _ => Rejected FetchFailed
      end in
  let thrown : nat -> string -> settled response :=
    fun i _ =>
      match i with
      | 0%nat => Fulfilled {| status := 200; json := Some nameless |}
      | 1%nat => Fulfilled {| status := 200; json := Some adidas |}
      | _ => Rejected FetchFailed
      end in
  let after fetch :=
    (initGitHubIntegration ascii_toLowerCase (fun _ => None) fetch
       1700000000000 App_github static_page).2 in
  let shown (doc : document) :=
    (fun card => displayed <$> by_id card !! "adidas-stars")
      <$> project_cards doc !! 1%nat in
  (outcome (fetchGitHubRepos shifted 1700000000000 repositories App_github)
   = Fulfilled [adidas]
   /\ shown (after shifted) = Some (Some "12")
   /\ project_cards (after shifted) = project_cards static_page)
  /\ (outcome (fetchGitHubRepos thrown 1700000000000 repositories App_github)
      = Fulfilled [nameless; adidas]
      /\ shown (after thrown) = Some (Some "-")).
Proof. by vm_compute. Qed.

Example stars_element_shows_zero :
  let r := {| name := Some "Adidas"; stargazers_count := None;
              forks_count := Some 3; updated_at := None |} in
  let doc' :=
    (updateProjectStats ascii_toLowerCase (fun _ => None)
       [JFalsy; JObject r] sample_page).1 in
  (fun card => displayed <$> by_id card !! "adidas-stars")
    <$> project_cards doc' !! 1%nat = Some (Some "0")
  /\ (fun card => displayed <$> by_id card !! "adidas-forks")
       <$> project_cards doc' !! 1%nat = Some (Some "3").
Proof. by vm_compute. Qed.

(** ** The fallback of initGitHubIntegration *)

(** When the call goes to the network and all its requests fail, nothing is
    thrown: the page is rendered from the empty batch. *)
Lemma init_when_all_failed toLowerCase elapsed_since fetch now st doc :
  cached_at st now = None ->
  (forall i repo, repositories !! i = Some repo ->
     failed (fetch i (repo_url repo)) = true) ->
  Fulfilled (initGitHubIntegration toLowerCase elapsed_since fetch now st doc).2
  = updateGitHubStats [] doc.
Proof.
  intros Hmiss Hfailed. unfold initGitHubIntegration.
  assert (Hnone : omap id (imap (delivered fetch) repositories) = []).
  { apply omap_imap_None. intros i repo Hrepo.
    by apply delivered_failed, Hfailed. }
  rewrite (fetch_miss _ _ _ _ Hmiss). cbv zeta. by rewrite Hnone.
Qed.

Lemma hideGitHubStats_text doc i card id e :
  project_cards doc !! i = Some card ->
  by_id card !! id = Some e ->
  is_stat_id id = true ->
  exists card' e',
    project_cards (hideGitHubStats doc) !! i = Some card'
    /\ by_id card' !! id = Some e' /\ textContent e' = "-".
Proof.
  intros Hcard He Hid. unfold hideGitHubStats. simpl.
  rewrite list_lookup_fmap, Hcard. simpl. eexists _, _. split; [done|].
  simpl. unfold hide_stats_in. rewrite map_lookup_imap, He. simpl.
  unfold hide_stat. by rewrite Hid.
Qed.

(** C3, at the failing input: the five requests of the page all fail.
    [fetchGitHubRepos] is fulfilled with the empty array, so the handler that
    calls [hideGitHubStats] does not run: every stat element keeps its text,
    none gets the placeholder, and the stats container shows totals of 0. *)
Theorem total_failure_without_placeholder :
  let after :=
    (initGitHubIntegration ascii_toLowerCase (fun _ => None) network_down
       1700000000000 App_github sample_page).2 in
  project_cards after = project_cards sample_page
  /\ elsewhere after = elsewhere sample_page
  /\ github_stats after = Some (stats_html 0 0 0)
  /\ (fun card => textContent <$> by_id card !! "adidas-stars")
       <$> project_cards after !! 1%nat = Some (Some "0")
  /\ (fun card => textContent <$> by_id card !! "adidas-stars")
       <$> project_cards (hideGitHubStats sample_page) !! 1%nat
     = Some (Some "-").
Proof.
  intros after.
  assert (Hafter : Fulfilled after = updateGitHubStats [] sample_page).
  { apply init_when_all_failed; [reflexivity|]. by intros i repo _. }
  clearbody after. injection Hafter as ->.
  split_and!; try reflexivity; by vm_compute.
Qed.

(** The handler does run when rendering throws, here on a repository object
    without a name. *)
Example placeholder_when_rendering_throws :
  let nameless := JObject {| name := None; stargazers_count := Some 5;
                             forks_count := Some 2; updated_at := None |} in
  let fetch : nat -> string -> settled response :=
    fun _ _ => Fulfilled {| status := 200; json := Some nameless |} in
  let after :=
    (initGitHubIntegration ascii_toLowerCase (fun _ => None) fetch
       1700000000000 App_github sample_page).2 in
  after = hideGitHubStats sample_page
  /\ (fun card => textContent <$> by_id card !! "adidas-forks")
       <$> project_cards after !! 1%nat = Some (Some "-").
Proof. split; by vm_compute. Qed.

(** * More properties of the GitHub integration *)

(** ** What fetchGitHubRepos returns and stores *)

(** X1.  From the initial [App.github] on, whatever calls came before, the
    array a call returns holds no [null], and it is the array the cache
    holds after the call. *)
Theorem returned_array_has_no_null st fetch now repos :
  reachable st ->
  exists validResults,
    outcome (fetchGitHubRepos fetch now repos st) = Fulfilled validResults
    /\ (JNull ∉ validResults)
    /\ cache (github_after (fetchGitHubRepos fetch now repos st))
         !! "repositories" = Some validResults.
Proof.
  intros Hreach.
  destruct (fetch_outcome_cached fetch now repos st) as (l & Hout & Hcache).
  exists l. split_and!; [done| |done].
  eapply (reachable_no_null _ (calls_more _ _ fetch now repos Hreach)), Hcache.
Qed.

Lemma returned_array_has_no_null_witness :
  let fetch : nat -> string -> settled response :=
    fun i _ =>
      if Nat.even i then Fulfilled {| status := 200; json := Some JNull |}
      else Fulfilled {| status := 200; json := Some JFalsy |} in
  let st := github_after
              (fetchGitHubRepos fetch 1700000000000 repositories App_github) in
  exists validResults,
    outcome (fetchGitHubRepos fetch 1700000400000 repositories st)
    = Fulfilled validResults
    /\ (JNull ∉ validResults)
    /\ cache (github_after
                (fetchGitHubRepos fetch 1700000400000 repositories st))
         !! "repositories" = Some validResults.
Proof.
  intros fetch st. apply returned_array_has_no_null.
  apply calls_more, calls_none.
Defined.

Lemma length_omap_imap {A B} (f : nat -> A -> option B) (l : list A) :
  (length (omap id (imap f l)) <= length l)%nat
  /\ (length (omap id (imap f l)) = length l <->
      forall i x, l !! i = Some x -> is_Some (f i x)).
Proof.
  revert f. induction l as [|x l IH]; intros f.
  - split; [done|]. split; [by intros _ i y|done].
  - rewrite imap_cons. destruct (IH (f ∘ S)) as [Hle Hiff].
    unfold omap in Hle, Hiff |- *. simpl.
    destruct (f 0%nat x) as [y|] eqn:Hx; simpl.
    + split; [lia|]. split.
      * intros Hlen i z Hz. destruct i as [|i]; simpl in Hz.
        -- injection Hz as <-. by rewrite Hx.
        -- apply (proj1 Hiff); [lia|done].
      * intros Hall. f_equal. apply Hiff. intros i z Hz. by apply (Hall (S i)).
    + split; [lia|]. split; [lia|].
      intros Hall. destruct (Hall 0%nat x eq_refl) as [? ?]. congruence.
Qed.

(** X2.  A call that goes to the network returns at most one value per name,
    and as many values as names exactly when every request delivered one. *)
Theorem returned_array_length fetch now repos st :
  cached_at st now = None ->
  exists validResults,
    outcome (fetchGitHubRepos fetch now repos st) = Fulfilled validResults
    /\ (length validResults <= length repos)%nat
    /\ (length validResults = length repos <->
        forall i repo, repos !! i = Some repo ->
                       is_Some (delivered fetch i repo)).
Proof.
  intros Hmiss. rewrite (fetch_miss _ _ _ _ Hmiss). simpl. eexists.
  split; [done|]. apply length_omap_imap.
Qed.

Lemma returned_array_length_witness :
  let fetch : nat -> string -> settled response :=
    fun i _ =>
      if Nat.even i then Fulfilled {| status := 200; json := Some JFalsy |}
      else Fulfilled {| status := 500; json := Some JFalsy |} in
  exists validResults,
    outcome (fetchGitHubRepos fetch 1700000000000 repositories App_github)
    = Fulfilled validResults
    /\ (length validResults <= length repositories)%nat
    /\ (length validResults = length repositories <->
        forall i repo, repositories !! i = Some repo ->
                       is_Some (delivered fetch i repo)).
Proof.
  intros fetch.
  apply (returned_array_length fetch 1700000000000 repositories App_github).
  reflexivity.
Defined.

Lemma fetch_ext fetch fetch' now repos st :
  (forall i repo, repos !! i = Some repo ->
     delivered fetch i repo = delivered fetch' i repo) ->
  fetchGitHubRepos fetch now repos st = fetchGitHubRepos fetch' now repos st.
Proof.
  intros Hsame. destruct (cached_at st now) as [cached|] eqn:Hc.
  - by rewrite !(fetch_hit _ _ _ _ _ Hc).
  - rewrite !(fetch_miss _ _ _ _ Hc). cbv zeta.
    by rewrite (imap_ext _ _ _ Hsame).
Qed.

(** X3.  For what a call returns, requests and stores, an answer with a
    status outside 200..299, an answer whose body is not JSON and an answer
    whose body is [null] are each the same as no answer at all. *)
Theorem bad_answer_is_no_answer fetch i now repos st :
  (forall url,
     match fetch i url with
     | Fulfilled r => ok r = false \/ json r = None \/ json r = Some JNull
     | Rejected _ => True
     end) ->
  fetchGitHubRepos fetch now repos st
  = fetchGitHubRepos (without_answer i fetch) now repos st.
Proof.
  intros Hbad. apply fetch_ext. intros j repo _.
  unfold delivered, without_answer. destruct (decide (j = i)) as [->|]; [|done].
  specialize (Hbad (repo_url repo)).
  destruct (fetch i (repo_url repo)) as [r|e]; [|done].
  destruct Hbad as [->|[->| ->]]; [done| |]; by destruct (ok r).
Qed.

Lemma bad_answer_is_no_answer_witness :
  let fetch : nat -> string -> settled response :=
    fun i _ =>
      match i with
      | O => Fulfilled {| status := 200; json := None |}
      | _ => Fulfilled {| status := 200; json := Some JFalsy |}
      end in
  fetchGitHubRepos fetch 1700000000000 repositories App_github
  = fetchGitHubRepos (without_answer 0 fetch) 1700000000000 repositories
      App_github.
Proof.
  intros fetch. apply bad_answer_is_no_answer. intros url. simpl. tauto.
Defined.

Lemma hits_change_nothing st now0 l :
  now0 = lastFetch st ->
  is_Some (cache st !! "repositories") ->
  Forall (fun c => call_now c - now0 < cacheDuration) l ->
  after_calls st l = st.
Proof.
  intros -> [cached Hcached] Hl. unfold after_calls.
  induction Hl as [|c l Hc _ IH]; [done|]. simpl.
  rewrite (fetch_hit _ _ _ _ cached); [exact IH|]. by apply cached_at_Some.
Qed.

(** X4.  The window does not slide: after a fetch at [now0], calls made
    inside the window leave [App.github] as the fetch left it, however many
    they are, and a call made [cacheDuration] or more after [now0] goes to
    the network for every name again. *)
Theorem window_does_not_slide fetch0 now0 repos0 st l fetch now repos :
  cached_at st now0 = None ->
  Forall (fun c => call_now c - now0 < cacheDuration) l ->
  cacheDuration <= now - now0 ->
  let st0 := github_after (fetchGitHubRepos fetch0 now0 repos0 st) in
  after_calls st0 l = st0
  /\ requests (fetchGitHubRepos fetch now repos (after_calls st0 l))
     = repo_url <$> repos.
Proof.
  intros Hmiss Hl Hlate st0.
  assert (Hlast : lastFetch st0 = now0) by by apply lastFetch_after_fetch.
  assert (Hsame : after_calls st0 l = st0).
  { apply (hits_change_nothing st0 now0); [done| |done].
    destruct (fetch_outcome_cached fetch0 now0 repos0 st) as (c & _ & Hc).
    fold st0 in Hc. by rewrite Hc. }
  split; [done|]. rewrite Hsame.
  rewrite fetch_miss; [done|]. apply cached_at_None. left. by rewrite Hlast.
Qed.

Lemma window_does_not_slide_witness :
  let hit t := {| call_fetch := network_down; call_now := t;
                  call_repositories := repositories |} in
  let st0 :=
    github_after
      (fetchGitHubRepos network_down 1700000000000 repositories App_github) in
  let l := [hit 1700000100000; hit 1700000200000; hit 1700000299999] in
  after_calls st0 l = st0
  /\ requests (fetchGitHubRepos network_down 1700000300000 repositories
                 (after_calls st0 l))
     = repo_url <$> repositories.
Proof.
  intros hit st0 l.
  apply (window_does_not_slide network_down 1700000000000 repositories
           App_github l network_down 1700000300000 repositories).
  - reflexivity.
  - repeat constructor.
  - unfold cacheDuration. lia.
Defined.

(** ** What updateProjectStats keeps, and what it touches *)

Lemma card_kept_refl card : card_kept card card.
Proof. by split_and!. Qed.

Lemma card_kept_trans card1 card2 card3 :
  card_kept card1 card2 -> card_kept card2 card3 -> card_kept card1 card3.
Proof.
  intros (Htext1 & Hcontent1 & Hinfo1) (Htext2 & Hcontent2 & Hinfo2).
  split_and!; [|congruence|by eauto].
  intros id. by rewrite Htext2, Htext1.
Qed.

Lemma cards_kept_refl (cards : list project_card) : Forall2 card_kept cards cards.
Proof. apply Forall_Forall2_diag, Forall_true, card_kept_refl. Qed.

Lemma animateStatNumber_kept id found target card :
  textContent <$> found = textContent <$> by_id card !! id ->
  found = None \/ is_Some found ->
  card_kept card (animateStatNumber id found target card).
Proof.
  intros Hfound _. destruct found as [e|]; [|apply card_kept_refl].
  split_and!; [|done..]. intros id'. simpl.
  destruct (decide (id' = id)) as [->|Hne].
  - by rewrite lookup_insert_eq, <- Hfound.
  - by rewrite lookup_insert_ne.
Qed.

Section RenderingInvariants.

Variable toLowerCase : string -> string.
Variable elapsed_since : string -> option Z.

#[local] Abbreviation project_stats_of := (project_stats_of toLowerCase elapsed_since).
#[local] Abbreviation forEach_from := (forEach_from toLowerCase elapsed_since).
#[local] Abbreviation updateProjectStats := (updateProjectStats toLowerCase elapsed_since).
#[local] Abbreviation getRepoSlug := (getRepoSlug toLowerCase).

Lemma addLastUpdatedInfo_kept card updatedAt :
  card_kept card (addLastUpdatedInfo elapsed_since card updatedAt).
Proof.
  split_and!.
  - intros id. by rewrite addLastUpdatedInfo_by_id.
  - unfold addLastUpdatedInfo. destruct updatedAt as [[|c date]|]; try done.
    destruct (last_updated card); [done|].
    by destruct (project_content card) eqn:Hcontent.
  - intros info Hinfo. unfold addLastUpdatedInfo.
    destruct updatedAt as [[|c date]|]; try done. by rewrite Hinfo.
Qed.

(** The card of the current index after the callback, when a card was
    found and nothing was thrown. *)
Lemma project_stats_of_inv r index doc doc' :
  project_stats_of (JObject r) index doc = Fulfilled doc' ->
  forall card, project_cards doc !! index = Some card ->
  exists repo_name,
    name r = Some repo_name
    /\ project_cards doc'
       = <[index :=
             addLastUpdatedInfo elapsed_since
               (animateStatNumber (getRepoSlug repo_name +:+ "-forks")
                  (by_id card !! (getRepoSlug repo_name +:+ "-forks"))
                  (or_zero (forks_count r))
                  (animateStatNumber (getRepoSlug repo_name +:+ "-stars")
                     (by_id card !! (getRepoSlug repo_name +:+ "-stars"))
                     (or_zero (stargazers_count r)) card))
               (updated_at r)]> (project_cards doc).
Proof.
  unfold project_stats_of. intros Hstep card Hcard. rewrite Hcard in Hstep.
  destruct (name r) as [repo_name|]; [|done]. exists repo_name. split; [done|].
  apply then_Fulfilled in Hstep as (starsElement & Hstars & Hstep).
  apply then_Fulfilled in Hstep as (forksElement & Hforks & [= <-]).
  unfold querySelector_id in Hstars, Hforks.
  destruct (valid_id_selector _) in Hstars; [|done].
  destruct (valid_id_selector _) in Hforks; [|done].
  by injection Hstars as <-; injection Hforks as <-.
Qed.

Lemma project_stats_of_kept repo index doc doc' :
  project_stats_of repo index doc = Fulfilled doc' ->
  Forall2 card_kept (project_cards doc) (project_cards doc').
Proof.
  intros Hstep. destruct repo as [| |r].
  1,2: injection Hstep as <-; apply cards_kept_refl.
  destruct (project_cards doc !! index) as [card|] eqn:Hcard.
  - destruct (project_stats_of_inv _ _ _ _ Hstep card Hcard)
      as (repo_name & _ & ->).
    rewrite <- (list_insert_id (project_cards doc) index card Hcard) at 1.
    apply Forall2_insert; [apply cards_kept_refl|].
    eapply card_kept_trans; [|apply addLastUpdatedInfo_kept].
    eapply card_kept_trans.
    + apply animateStatNumber_kept; [done|]. destruct (by_id card !! _); eauto.
    + pose proof (stat_ids_differ (getRepoSlug repo_name)) as Hids.
      apply animateStatNumber_kept; [|destruct (by_id card !! _); eauto].
      destruct (by_id card !! (getRepoSlug repo_name +:+ "-stars")); simpl;
        [by rewrite lookup_insert_ne|done].
  - unfold project_stats_of in Hstep. rewrite Hcard in Hstep.
    injection Hstep as <-. apply cards_kept_refl.
Qed.

Lemma forEach_from_kept repoData : forall index doc doc' thrown,
  forEach_from index repoData doc = (doc', thrown) ->
  Forall2 card_kept (project_cards doc) (project_cards doc').
Proof.
  induction repoData as [|repo rest IH]; intros index doc doc' thrown; simpl.
  - intros [= <- _]. apply cards_kept_refl.
  - destruct (project_stats_of repo index doc) as [doc1|e] eqn:Hstep.
    + intros Hrest%IH. eapply Forall2_trans; [|by eapply project_stats_of_kept|done].
      apply card_kept_trans.
    + intros [= <- _]. apply cards_kept_refl.
Qed.

(** X5.  Whether the loop of [updateProjectStats] ends or throws, the page
    has the same cards as before, each with the same elements holding the
    same text and with the [.last-updated] line it already had; the stats
    container and the elements outside the cards are as before.  (The loop
    only starts animations and adds "Updated" lines that were not there.) *)
Theorem updateProjectStats_keeps_page repoData doc :
  let doc' := (updateProjectStats repoData doc).1 in
  Forall2 card_kept (project_cards doc) (project_cards doc')
  /\ github_stats doc' = github_stats doc
  /\ elsewhere doc' = elsewhere doc.
Proof.
  intros doc'. unfold doc'.
  destruct (updateProjectStats repoData doc) as [d thrown] eqn:Hupdate. simpl.
  split; [by eapply forEach_from_kept|].
  destruct (forEach_from_frame _ _ _ _ _ _ _ Hupdate) as (? & ? & _). done.
Qed.

Lemma project_stats_of_touches repo index doc doc' i card card' id :
  project_stats_of repo index doc = Fulfilled doc' ->
  project_cards doc !! i = Some card ->
  project_cards doc' !! i = Some card' ->
  by_id card' !! id = by_id card !! id
  \/ (i = index
      /\ exists r repo_name,
           repo = JObject r /\ name r = Some repo_name
           /\ (id = getRepoSlug repo_name +:+ "-stars"
               \/ id = getRepoSlug repo_name +:+ "-forks")).
Proof.
  intros Hstep Hcard Hcard'. destruct (decide (i = index)) as [->|Hne].
  - destruct repo as [| |r].
    1,2: injection Hstep as <-; left; congruence.
    destruct (project_stats_of_inv _ _ _ _ Hstep card Hcard)
      as (repo_name & Hname & Hcards).
    rewrite Hcards, list_lookup_insert_eq in Hcard'
      by by eapply lookup_lt_Some.
    injection Hcard' as <-. rewrite addLastUpdatedInfo_by_id.
    destruct (decide (id = getRepoSlug repo_name +:+ "-stars")) as [->|Hs];
      [right; eauto 10|].
    destruct (decide (id = getRepoSlug repo_name +:+ "-forks")) as [->|Hf];
      [right; eauto 10|].
    left. unfold animateStatNumber.
    destruct (by_id card !! (getRepoSlug repo_name +:+ "-forks")),
      (by_id card !! (getRepoSlug repo_name +:+ "-stars")); simpl;
      by rewrite ?lookup_insert_ne.
  - left. destruct (project_stats_of_frame _ _ _ _ _ _ Hstep) as (_ & _ & Hframe).
    rewrite Hframe in Hcard' by done. congruence.
Qed.

Lemma forEach_from_touches repoData :
  forall index doc doc' thrown i card card' id,
  forEach_from index repoData doc = (doc', thrown) ->
  project_cards doc !! i = Some card ->
  project_cards doc' !! i = Some card' ->
  by_id card' !! id = by_id card !! id
  \/ exists k r repo_name,
       i = (index + k)%nat /\ repoData !! k = Some (JObject r)
       /\ name r = Some repo_name
       /\ (id = getRepoSlug repo_name +:+ "-stars"
           \/ id = getRepoSlug repo_name +:+ "-forks").
Proof.
  induction repoData as [|repo rest IH];
    intros index doc doc' thrown i card card' id; simpl.
  - intros [= <- _] ? ?. left. congruence.
  - destruct (project_stats_of repo index doc) as [doc1|e] eqn:Hstep.
    + intros Hrest Hcard Hcard'.
      destruct (Forall2_lookup_l _ _ _ _ _ (project_stats_of_kept _ _ _ _ Hstep)
                  Hcard) as (card1 & Hcard1 & _).
      destruct (project_stats_of_touches _ _ _ _ _ _ _ id Hstep Hcard Hcard1)
        as [Hsame|(-> & r & repo_name & -> & Hname & Hid)].
      * destruct (IH _ _ _ _ _ _ _ id Hrest Hcard1 Hcard')
          as [Hsame'|(k & r & repo_name & -> & Hk & Hname & Hid)].
        -- left. congruence.
        -- right. exists (S k), r, repo_name. split_and!; [lia|done..].
      * right. exists 0%nat, r, repo_name. split_and!; [lia|done..].
    + intros [= <- _] ? ?. left. congruence.
Qed.

(** X6.  [updateProjectStats] changes an element of the card at index [i]
    only when it is the stars or the forks element named after the slug of
    the repository at index [i] of the batch: cards and repositories are
    paired by position, not by name. *)
Theorem updateProjectStats_pairs_by_position repoData doc i card card' id :
  project_cards doc !! i = Some card ->
  project_cards (updateProjectStats repoData doc).1 !! i = Some card' ->
  by_id card' !! id ≠ by_id card !! id ->
  exists r repo_name,
    repoData !! i = Some (JObject r) /\ name r = Some repo_name
    /\ (id = getRepoSlug repo_name +:+ "-stars"
        \/ id = getRepoSlug repo_name +:+ "-forks").
Proof.
  intros Hcard Hcard' Hchanged.
  destruct (updateProjectStats repoData doc) as [doc' thrown] eqn:Hupdate.
  destruct (forEach_from_touches _ _ _ _ _ _ _ _ id Hupdate Hcard Hcard')
    as [?|(k & r & repo_name & -> & ? & ? & ?)]; [done|]. eauto.
Qed.

End RenderingInvariants.

Lemma updateProjectStats_pairs_by_position_witness :
  let adidas := {| name := Some "Adidas"; stargazers_count := Some 5;
                   forks_count := None; updated_at := None |} in
  let repoData := [JFalsy; JObject adidas] in
  exists r repo_name,
    repoData !! 1%nat = Some (JObject r) /\ name r = Some repo_name
    /\ ("adidas-stars" = getRepoSlug ascii_toLowerCase repo_name +:+ "-stars"
        \/ "adidas-stars" = getRepoSlug ascii_toLowerCase repo_name +:+ "-forks").
Proof.
  intros adidas repoData.
  eapply (updateProjectStats_pairs_by_position ascii_toLowerCase
            (fun _ => None) repoData sample_page 1 (stat_card "adidas")).
  - reflexivity.
  - vm_compute. reflexivity.
  - vm_compute. discriminate.
Defined.

(** ** The fallback *)

Lemma hideGitHubStats_card doc i card' :
  project_cards (hideGitHubStats doc) !! i = Some card' ->
  exists card,
    project_cards doc !! i = Some card
    /\ by_id card' = hide_stats_in (by_id card).
Proof.
  unfold hideGitHubStats. simpl. rewrite list_lookup_fmap.
  destruct (project_cards doc !! i) as [card|]; [|done].
  intros [= <-]. eauto.
Qed.

Lemma hide_stats_in_lookup els id :
  hide_stats_in els !! id = hide_stat id <$> els !! id.
Proof. unfold hide_stats_in. rewrite map_lookup_imap. by destruct (els !! id). Qed.

Lemma hide_stats_in_placeholder els id el :
  hide_stats_in els !! id = Some el -> is_stat_id id = true ->
  textContent el = "-".
Proof.
  rewrite hide_stats_in_lookup. destruct (els !! id) as [e|]; [|done].
  intros [= <-] Hid. unfold hide_stat. by rewrite Hid.
Qed.

(** X7.  When rendering throws, [initGitHubIntegration] ends with the
    fallback: every element of the page whose id ends in "-stars" or
    "-forks" holds the text "-", the stats container is as it was before the
    call (no totals are written), and the batch stays in the cache. *)
Theorem rendering_throw_falls_back toLowerCase elapsed_since fetch now st doc
    repoData doc' e :
  outcome (fetchGitHubRepos fetch now repositories st) = Fulfilled repoData ->
  updateProjectStats toLowerCase elapsed_since repoData doc = (doc', Some e) ->
  let after :=
    initGitHubIntegration toLowerCase elapsed_since fetch now st doc in
  after.2 = hideGitHubStats doc'
  /\ github_stats after.2 = github_stats doc
  /\ (forall i card id el,
        project_cards after.2 !! i = Some card -> by_id card !! id = Some el ->
        is_stat_id id = true -> textContent el = "-")
  /\ (forall id el,
        elsewhere after.2 !! id = Some el -> is_stat_id id = true ->
        textContent el = "-")
  /\ cache after.1 !! "repositories" = Some repoData.
Proof.
  intros Hfetch Hupdate after.
  assert (Hafter : after.2 = hideGitHubStats doc').
  { unfold after, initGitHubIntegration. by rewrite Hfetch, Hupdate. }
  rewrite Hafter. split_and!; [done| | | |].
  - simpl. by destruct (forEach_from_frame _ _ _ _ _ _ _ Hupdate) as (-> & _).
  - intros i card id el (card0 & _ & Hby)%hideGitHubStats_card.
    rewrite Hby. apply hide_stats_in_placeholder.
  - intros id el. simpl. apply hide_stats_in_placeholder.
  - unfold after, initGitHubIntegration. rewrite Hfetch, Hupdate. simpl.
    destruct (fetch_outcome_cached fetch now repositories st) as (l & Hl & Hc).
    congruence.
Qed.

Lemma rendering_throw_falls_back_witness :
  let nameless := JObject {| name := None; stargazers_count := Some 5;
                             forks_count := Some 2; updated_at := None |} in
  let fetch : nat -> string -> settled response :=
    fun _ _ => Fulfilled {| status := 200; json := Some nameless |} in
  let repoData := [nameless; nameless; nameless; nameless; nameless] in
  let after :=
    initGitHubIntegration ascii_toLowerCase (fun _ => None) fetch
      1700000000000 App_github sample_page in
  after.2 = hideGitHubStats sample_page
  /\ github_stats after.2 = github_stats sample_page
  /\ (forall i card id el,
        project_cards after.2 !! i = Some card -> by_id card !! id = Some el ->
        is_stat_id id = true -> textContent el = "-")
  /\ (forall id el,
        elsewhere after.2 !! id = Some el -> is_stat_id id = true ->
        textContent el = "-")
  /\ cache after.1 !! "repositories" = Some repoData.
Proof.
  intros nameless fetch repoData.
  apply (rendering_throw_falls_back ascii_toLowerCase (fun _ => None) fetch
           1700000000000 App_github sample_page repoData sample_page TypeError).
  - reflexivity.
  - reflexivity.
Defined.

(** X8.  The placeholder does not last on an element whose animation was
    started before rendering threw: the frames of the animation go on writing
    the element, which ends showing its count. *)
Theorem placeholder_loses_to_animation toLowerCase elapsed_since fetch now st
    doc repoData doc' e i card id el target :
  outcome (fetchGitHubRepos fetch now repositories st) = Fulfilled repoData ->
  updateProjectStats toLowerCase elapsed_since repoData doc = (doc', Some e) ->
  project_cards doc' !! i = Some card ->
  by_id card !! id = Some el ->
  animating el = Some target ->
  let after :=
    initGitHubIntegration toLowerCase elapsed_since fetch now st doc in
  exists card' el',
    project_cards after.2 !! i = Some card'
    /\ by_id card' !! id = Some el'
    /\ displayed el' = pretty target.
Proof.
  intros Hfetch Hupdate Hcard Hel Htarget after.
  unfold after, initGitHubIntegration. rewrite Hfetch, Hupdate. simpl.
  rewrite list_lookup_fmap, Hcard. simpl. eexists _, _. split; [done|].
  simpl. rewrite hide_stats_in_lookup, Hel. simpl. split; [done|].
  unfold hide_stat, displayed. destruct (is_stat_id id); simpl; by rewrite Htarget.
Qed.

Lemma placeholder_loses_to_animation_witness :
  let fifa := JObject {| name := Some "Fifa-World-Cup-Qatar-2022";
                         stargazers_count := Some 7; forks_count := Some 1;
                         updated_at := None |} in
  let nameless := JObject {| name := None; stargazers_count := None;
                             forks_count := None; updated_at := None |} in
  let fetch : nat -> string -> settled response :=
    fun i _ =>
      Fulfilled {| status := 200;
                   json := Some (if Nat.eqb i 0 then fifa else nameless) |} in
  let after :=
    initGitHubIntegration ascii_toLowerCase (fun _ => None) fetch
      1700000000000 App_github sample_page in
  exists card' el',
    project_cards after.2 !! 0%nat = Some card'
    /\ by_id card' !! "fifa-world-cup-qatar-2022-stars" = Some el'
    /\ displayed el' = "7".
Proof.
  intros fifa nameless fetch.
  eapply (placeholder_loses_to_animation ascii_toLowerCase (fun _ => None)
            fetch 1700000000000 App_github sample_page
            [fifa; nameless; nameless; nameless; nameless]
            _ TypeError 0 _ "fifa-world-cup-qatar-2022-stars" _ 7).
  - reflexivity.
  - vm_compute. reflexivity.
  - vm_compute. reflexivity.
  - vm_compute. reflexivity.
  - reflexivity.
Defined.

Section RenderingThrows.

Variable toLowerCase : string -> string.
Variable elapsed_since : string -> option Z.

#[local] Abbreviation forEach_from := (forEach_from toLowerCase elapsed_since).
#[local] Abbreviation updateProjectStats := (updateProjectStats toLowerCase elapsed_since).

(** The loop over a batch in two parts. *)
Lemma forEach_from_app l1 l2 : forall index doc,
  forEach_from index (l1 ++ l2) doc
  = match forEach_from index l1 doc with
    | (doc1, None) => forEach_from (index + length l1) l2 doc1
    | (doc1, Some e) => (doc1, Some e)
    end.
Proof.
  induction l1 as [|repo l1 IH]; intros index doc; simpl.
  - by rewrite Nat.add_0_r.
  - destruct (project_stats_of _ _ repo index doc) as [doc1|e]; [|done].
    rewrite IH. by replace (S index + length l1)%nat with (index + S (length l1))%nat by lia.
Qed.

(** X9.  A repository object without a name, at an index where the page has
    a card, makes [updateProjectStats] throw a TypeError when its turn
    comes: the repositories before it are rendered, it and the ones after it
    are not. *)
Theorem nameless_repository_throws repoData doc i r :
  repoData !! i = Some (JObject r) ->
  name r = None ->
  (i < length (project_cards doc))%nat ->
  (updateProjectStats (take i repoData) doc).2 = None ->
  updateProjectStats repoData doc
  = ((updateProjectStats (take i repoData) doc).1, Some TypeError).
Proof.
  intros Hi Hname Hcards Hbefore.
  rewrite <- (take_drop_middle repoData i (JObject r) Hi) at 1.
  unfold updateProjectStats in *. rewrite forEach_from_app.
  destruct (forEach_from 0 (take i repoData) doc) as [doc1 thrown] eqn:Hloop.
  simpl in Hbefore. subst thrown.
  rewrite length_take_le by (apply lookup_lt_Some in Hi; lia).
  pose proof (forEach_from_kept _ _ _ _ _ _ _ Hloop) as Hkept.
  apply Forall2_length in Hkept.
  destruct (lookup_lt_is_Some_2 (project_cards doc1) i) as [card Hcard];
    [lia|].
  simpl. unfold project_stats_of. by rewrite Hcard, Hname.
Qed.

End RenderingThrows.

Lemma nameless_repository_throws_witness :
  let fifa := JObject {| name := Some "Fifa-World-Cup-Qatar-2022";
                         stargazers_count := Some 7; forks_count := Some 1;
                         updated_at := None |} in
  let nameless := {| name := None; stargazers_count := Some 3;
                     forks_count := None; updated_at := None |} in
  let repoData := [fifa; JObject nameless; fifa] in
  updateProjectStats ascii_toLowerCase (fun _ => None) repoData sample_page
  = ((updateProjectStats ascii_toLowerCase (fun _ => None)
       (take 1 repoData) sample_page).1, Some TypeError).
Proof.
  intros fifa nameless repoData.
  apply (nameless_repository_throws ascii_toLowerCase (fun _ => None)
           repoData sample_page 1 nameless).
  - reflexivity.
  - reflexivity.
  - vm_compute. lia.
  - vm_compute. reflexivity.
Defined.

Lemma hide_stat_idemp id e : hide_stat id (hide_stat id e) = hide_stat id e.
Proof. unfold hide_stat. destruct (is_stat_id id) eqn:Hid; by rewrite ?Hid. Qed.

Lemma hide_stats_in_idemp els :
  hide_stats_in (hide_stats_in els) = hide_stats_in els.
Proof.
  apply map_eq. intros id. rewrite !hide_stats_in_lookup.
  destruct (els !! id); simpl; [|done]. by rewrite hide_stat_idemp.
Qed.

(** X10.  [hideGitHubStats] twice is [hideGitHubStats] once, and it leaves
    every element whose id ends in neither "-stars" nor "-forks" as it is. *)
Theorem hideGitHubStats_idempotent doc :
  hideGitHubStats (hideGitHubStats doc) = hideGitHubStats doc
  /\ (forall i card' id,
        project_cards (hideGitHubStats doc) !! i = Some card' ->
        is_stat_id id = false ->
        exists card,
          project_cards doc !! i = Some card
          /\ by_id card' !! id = by_id card !! id)
  /\ (forall id,
        is_stat_id id = false ->
        elsewhere (hideGitHubStats doc) !! id = elsewhere doc !! id).
Proof.
  split_and!.
  - unfold hideGitHubStats. simpl. f_equal.
    + rewrite <- list_fmap_compose. apply list_fmap_ext. intros i card _.
      simpl. by rewrite hide_stats_in_idemp.
    + apply hide_stats_in_idemp.
  - intros i card' id (card & Hcard & Hby)%hideGitHubStats_card Hid.
    exists card. split; [done|]. rewrite Hby, hide_stats_in_lookup.
    destruct (by_id card !! id); simpl; [|done].
    unfold hide_stat. by rewrite Hid.
  - intros id Hid. simpl. rewrite hide_stats_in_lookup.
    destruct (elsewhere doc !! id); simpl; [|done].
    unfold hide_stat. by rewrite Hid.
Qed.

(** ** getTimeAgo *)

Lemma div_between a b lo hi :
  0 < b -> lo * b <= a < hi * b -> lo <= a / b < hi.
Proof.
  intros Hb [Hlo Hhi]. split.
  - apply Z.div_le_lower_bound; lia.
  - apply Z.div_lt_upper_bound; lia.
Qed.

Lemma div_exact a b n : 0 < b -> n * b <= a < (n + 1) * b -> a / b = n.
Proof. intros Hb Hn. pose proof (div_between a b n (n + 1) Hb Hn). lia. Qed.

(** X11.  What [getTimeAgo] says of an elapsed time, by whole days of 24
    hours: "today" below one day and "yesterday" below two; "n days ago" for
    n from 2 to 29 days; "n months ago" for n from 1 to 11 periods of 30
    days, and "12 months ago" for the days 360 to 364; "n years ago" for n
    periods of 365 days, from 1 on; a date in the future reads as a negative
    number of days, rounded down. *)
Theorem getTimeAgo_ranges diff :
  let text := getTimeAgo (Some diff) in
  let day := 1000 * 60 * 60 * 24 in
  (0 <= diff < day -> text = "today")
  /\ (day <= diff < 2 * day -> text = "yesterday")
  /\ (forall n, 2 <= n <= 29 -> n * day <= diff < (n + 1) * day ->
        text = pretty n +:+ " days ago")
  /\ (forall n, n <= -1 -> n * day <= diff < (n + 1) * day ->
        text = pretty n +:+ " days ago")
  /\ (forall n, 1 <= n <= 11 ->
        30 * n * day <= diff < 30 * (n + 1) * day ->
        text = pretty n +:+ " months ago")
  /\ (360 * day <= diff < 365 * day -> text = "12 months ago")
  /\ (forall n, 1 <= n -> 365 * n * day <= diff < 365 * (n + 1) * day ->
        text = pretty n +:+ " years ago").
Proof.
  intros text day. unfold text, getTimeAgo.
  change (1000 * 60 * 60 * 24) with 86400000. unfold day.
  change (1000 * 60 * 60 * 24) with 86400000.
  set (days := diff / 86400000).
  assert (Hcases : forall lo hi,
            lo * 86400000 <= diff < hi * 86400000 -> lo <= days < hi).
  { intros lo hi. by apply div_between. }
  split_and!.
  - intros Hdiff. assert (days = 0) as -> by (specialize (Hcases 0 1); lia).
    done.
  - intros Hdiff. assert (days = 1) as -> by (specialize (Hcases 1 2); lia).
    done.
  - intros n Hn Hdiff.
    assert (days = n) as -> by (specialize (Hcases n (n + 1)); lia).
    destruct (Z.eqb_spec n 0); [lia|]. destruct (Z.eqb_spec n 1); [lia|].
    destruct (Z.ltb_spec n 30); [done|lia].
  - intros n Hn Hdiff.
    assert (days = n) as -> by (specialize (Hcases n (n + 1)); lia).
    destruct (Z.eqb_spec n 0); [lia|]. destruct (Z.eqb_spec n 1); [lia|].
    destruct (Z.ltb_spec n 30); [done|lia].
  - intros n Hn Hdiff.
    specialize (Hcases (30 * n) (30 * (n + 1)) ltac:(lia)).
    destruct (Z.eqb_spec days 0); [lia|]. destruct (Z.eqb_spec days 1); [lia|].
    destruct (Z.ltb_spec days 30); [lia|].
    destruct (Z.ltb_spec days 365); [|lia].
    by rewrite (div_exact days 30 n) by lia.
  - intros Hdiff. specialize (Hcases 360 365 ltac:(lia)).
    destruct (Z.eqb_spec days 0); [lia|]. destruct (Z.eqb_spec days 1); [lia|].
    destruct (Z.ltb_spec days 30); [lia|].
    destruct (Z.ltb_spec days 365); [|lia].
    by rewrite (div_exact days 30 12) by lia.
  - intros n Hn Hdiff.
    specialize (Hcases (365 * n) (365 * (n + 1)) ltac:(lia)).
    destruct (Z.eqb_spec days 0); [lia|]. destruct (Z.eqb_spec days 1); [lia|].
    destruct (Z.ltb_spec days 30); [lia|].
    destruct (Z.ltb_spec days 365); [lia|].
    by rewrite (div_exact days 365 n) by lia.
Qed.

Lemma getTimeAgo_ranges_witness :
  getTimeAgo (Some 3600000) = "today"
  /\ getTimeAgo (Some (-1)) = "-1 days ago"
  /\ getTimeAgo (Some (100 * 86400000)) = "3 months ago"
  /\ getTimeAgo (Some (364 * 86400000 + 86399999)) = "12 months ago"
  /\ getTimeAgo (Some (800 * 86400000)) = "2 years ago".
Proof.
  split_and!.
  - destruct (getTimeAgo_ranges 3600000) as (Htoday & _).
    apply Htoday. lia.
  - destruct (getTimeAgo_ranges (-1)) as (_ & _ & _ & Hfuture & _).
    apply (Hfuture (-1)); lia.
  - destruct (getTimeAgo_ranges (100 * 86400000))
      as (_ & _ & _ & _ & Hmonths & _).
    apply (Hmonths 3); lia.
  - destruct (getTimeAgo_ranges (364 * 86400000 + 86399999))
      as (_ & _ & _ & _ & _ & Htwelve & _).
    apply Htwelve. lia.
  - destruct (getTimeAgo_ranges (800 * 86400000))
      as (_ & _ & _ & _ & _ & _ & Hyears).
    apply (Hyears 2); lia.
Defined.

Example getTimeAgo_examples :
  getTimeAgo (Some 0) = "today"
  /\ getTimeAgo (Some 86400000) = "yesterday"
  /\ getTimeAgo (Some (364 * 86400000)) = "12 months ago"
  /\ getTimeAgo (Some (-1)) = "-1 days ago"
  /\ getTimeAgo None = "NaN years ago".
Proof. by vm_compute. Qed.

(** * The contact form *)

Module ContactFormFacts.
Import ContactForm.

Lemma nullable_matches r : nullable r = true <-> matches r [].
Proof.
  induction r as [| |p|r1 IH1 r2 IH2|r1 IH1 r2 IH2|r IH]; simpl.
  - split; [done|]. inversion 1.
  - split; [constructor|done].
  - split; [done|]. inversion 1.
  - rewrite andb_true_iff, IH1, IH2. split.
    + intros [H1 H2]. apply (matches_then _ _ [] [] H1 H2).
    + intros Hm. inv Hm.
      match goal with H : _ ++ _ = [] |- _ => apply app_eq_nil in H as [-> ->] end.
      done.
  - rewrite orb_true_iff, IH1, IH2. split.
    + intros [?|?]; [by apply matches_or_l|by apply matches_or_r].
    + intros Hm. inv Hm; eauto.
  - split; [constructor|done].
Qed.

Lemma matches_many_cons r c s :
  matches (Many r) (c :: s) ->
  exists s1 s2, s = s1 ++ s2 /\ matches r (c :: s1) /\ matches (Many r) s2.
Proof.
  remember (Many r) as rr eqn:Hrr. remember (c :: s) as cs eqn:Hcs.
  intros Hm. revert s Hcs.
  induction Hm as [| | | | | |r' s1 s2 H1 _ H2 IH2];
    intros t Hcs; try discriminate.
  injection Hrr as ->.
  destruct s1 as [|c1 s1]; simpl in Hcs.
  - by apply IH2.
  - injection Hcs as -> <-. eauto.
Qed.

Lemma matches_then_cons r1 r2 c t :
  matches (Then r1 r2) (c :: t) ->
  (exists s1 s2, t = s1 ++ s2 /\ matches r1 (c :: s1) /\ matches r2 s2)
  \/ (matches r1 [] /\ matches r2 (c :: t)).
Proof.
  intros Hm. inv Hm.
  match goal with H : ?s1 ++ ?s2 = c :: t |- _ =>
    destruct s1 as [|c1 s1]; simpl in H; [right; by subst|
      injection H as -> <-; left; eauto] end.
Qed.

Lemma derive_matches r : forall c s,
  matches (derive c r) s <-> matches r (c :: s).
Proof.
  induction r as [| |p|r1 IH1 r2 IH2|r1 IH1 r2 IH2|r IH]; intros c s; simpl.
  - split; inversion 1.
  - split; inversion 1.
  - destruct (p c) eqn:Hp.
    + split; intros Hm; inv Hm; by constructor.
    + split; intros Hm; inv Hm. congruence.
  - assert (Hfirst : forall t,
      matches (Then (derive c r1) r2) t -> matches (Then r1 r2) (c :: t)).
    { intros t Hm. inv Hm.
      match goal with H1 : matches (derive c r1) ?s1, H2 : matches r2 ?s2 |- _ =>
        apply IH1 in H1; apply (matches_then _ _ (c :: s1) s2 H1 H2) end. }
    assert (Hback : forall t,
      matches (Then r1 r2) (c :: t) ->
      matches (Then (derive c r1) r2) t
      \/ (matches r1 [] /\ matches r2 (c :: t))).
    { intros t [(s1 & s2 & -> & H1 & H2)|?]%matches_then_cons; [|by right].
      left. constructor; [by apply IH1|done]. }
    destruct (nullable r1) eqn:Hnull.
    + split.
      * intros Hm. inv Hm; [by apply Hfirst|].
        apply (matches_then _ _ [] (c :: s)); [by apply nullable_matches|].
        by apply IH2.
      * intros [?|[_ ?]]%Hback; [by apply matches_or_l|].
        apply matches_or_r. by apply IH2.
    + split; [apply Hfirst|].
      intros [?|[Hnil _]]%Hback; [done|].
      apply nullable_matches in Hnil. congruence.
  - split; intros Hm; inv Hm;
      (apply matches_or_l; by apply IH1) || (apply matches_or_r; by apply IH2).
  - split.
    + intros Hm. inv Hm.
      match goal with H1 : matches (derive c r) ?s1, H2 : matches (Many r) ?s2 |- _ =>
        apply (matches_many_more _ (c :: s1) s2); [by apply IH|done] end.
    + intros (s1 & s2 & -> & H1 & H2)%matches_many_cons.
      constructor; [by apply IH|done].
Qed.

Lemma test_matches s : forall r, test r s = true <-> matches r s.
Proof.
  induction s as [|c s IH]; intros r; simpl.
  - apply nullable_matches.
  - rewrite IH. apply derive_matches.
Qed.

Lemma matches_many_class p s :
  matches (Many (Class p)) s <-> Forall (fun c => p c = true) s.
Proof.
  split.
  - remember (Many (Class p)) as r eqn:Hr. intros Hm.
    induction Hm as [| | | | | |r' s1 s2 H1 _ H2 IH2]; try discriminate.
    + constructor.
    + injection Hr as ->. inv H1. constructor; [done|]. by apply IH2.
  - induction 1 as [|c s Hc _ IH]; [constructor|].
    apply (matches_many_more _ [c] s); [by constructor|done].
Qed.

Lemma matches_some_class p s :
  matches (OneOrMore (Class p)) s <->
  s ≠ [] /\ Forall (fun c => p c = true) s.
Proof.
  unfold OneOrMore. split.
  - intros Hm. inv Hm.
    match goal with H1 : matches (Class p) _, H2 : matches (Many _) _ |- _ =>
      inv H1; apply matches_many_class in H2 end.
    split; [done|]. by constructor.
  - intros [Hne Hall]. destruct Hall as [|c s Hc Hall]; [done|].
    apply (matches_then _ _ [c] s); [by constructor|].
    by apply matches_many_class.
Qed.

Lemma matches_class_then p r s :
  matches (Then (Class p) r) s <->
  exists c t, s = c :: t /\ p c = true /\ matches r t.
Proof.
  split.
  - intros Hm. inv Hm.
    match goal with H1 : matches (Class p) _ |- _ => inv H1 end. eauto.
  - intros (c & t & -> & Hc & Ht).
    apply (matches_then _ _ [c] t); [by constructor|done].
Qed.

Lemma matches_then_inv r1 r2 s :
  matches (Then r1 r2) s <->
  exists s1 s2, s = s1 ++ s2 /\ matches r1 s1 /\ matches r2 s2.
Proof.
  split.
  - intros Hm. inv Hm. eauto.
  - intros (s1 & s2 & -> & ? & ?). by constructor.
Qed.

(** The strings of [emailRegex], read off the expression. *)
Lemma matches_emailRegex s :
  matches emailRegex s <->
  exists user host rest,
    s = user ++ at_sign :: host ++ dot :: rest
    /\ user ≠ [] /\ host ≠ [] /\ rest ≠ []
    /\ Forall (fun c => not_space_or_at c = true) (user ++ host ++ rest).
Proof.
  unfold emailRegex. rewrite matches_then_inv. split.
  - intros (user & s1 & -> & [? ?]%matches_some_class & H1).
    apply matches_class_then in H1 as (a & s2 & -> & <-%N.eqb_eq & H2).
    apply matches_then_inv in H2
      as (host & s3 & -> & [? ?]%matches_some_class & H3).
    apply matches_class_then in H3
      as (d & rest & -> & <-%N.eqb_eq & [? ?]%matches_some_class).
    exists user, host, rest. split_and!; [done..|]. by rewrite !Forall_app.
  - intros (user & host & rest & -> & ? & ? & ? & Hall).
    rewrite !Forall_app in Hall. destruct Hall as (? & ? & ?).
    exists user, (at_sign :: host ++ dot :: rest).
    split_and!; [done|by apply matches_some_class|].
    apply matches_class_then. eexists _, _. split_and!; [done|apply N.eqb_refl|].
    apply matches_then_inv. exists host, (dot :: rest).
    split_and!; [done|by apply matches_some_class|].
    apply matches_class_then. eexists _, _. split_and!; [done|apply N.eqb_refl|].
    by apply matches_some_class.
Qed.


Lemma not_space_or_at_spec c :
  not_space_or_at c = true <-> is_white_space c = false /\ c ≠ at_sign.
Proof.
  unfold not_space_or_at.
  rewrite andb_true_iff, !negb_true_iff, N.eqb_neq. done.
Qed.

(** X12.  [isValidEmail] accepts exactly the strings that hold no white
    space and exactly one "@", which is not the first character and is
    followed by a part with a "." that is neither the first nor the last
    character of that part. *)
Theorem isValidEmail_spec email :
  isValidEmail email = true <->
  Forall (fun c => is_white_space c = false) email
  /\ exists user domain,
       email = user ++ at_sign :: domain
       /\ user ≠ [] /\ (at_sign ∉ user) /\ (at_sign ∉ domain)
       /\ exists i, (0 < i)%nat /\ (S i < length domain)%nat
                    /\ domain !! i = Some dot.
Proof.
  unfold isValidEmail. rewrite test_matches, matches_emailRegex. split.
  - intros (user & host & rest & -> & Huser & Hhost & Hrest & Hall).
    rewrite !Forall_app in Hall. destruct Hall as (Hu & Hh & Hr).
    assert (Hsplit : forall l,
      Forall (fun c => not_space_or_at c = true) l ->
      Forall (fun c => is_white_space c = false) l /\ at_sign ∉ l).
    { intros l Hl. split.
      - eapply Forall_impl; [done|]. by intros c [? _]%not_space_or_at_spec.
      - intros Hin. rewrite Forall_forall in Hl.
        by apply Hl, not_space_or_at_spec in Hin as [_ ?]. }
    apply Hsplit in Hu as [? ?], Hh as [? ?], Hr as [? ?]. split.
    + rewrite Forall_app, Forall_cons, Forall_app, Forall_cons. done.
    + exists user, (host ++ dot :: rest). split_and!; [done..| |].
      * rewrite elem_of_app, elem_of_cons. intros [?|[?|?]]; done.
      * exists (length host). split_and!.
        -- destruct host; [done|simpl; lia].
        -- rewrite length_app. destruct rest; [done|simpl; lia].
        -- by rewrite list_lookup_middle.
  - intros (Hspace & user & domain & -> & Huser & Hu & Hd & i & Hi & Hlen & Hdot).
    rewrite Forall_app, Forall_cons in Hspace.
    destruct Hspace as (Hsu & _ & Hsd).
    assert (Hjoin : forall l,
      Forall (fun c => is_white_space c = false) l -> at_sign ∉ l ->
      Forall (fun c => not_space_or_at c = true) l).
    { intros l Hl Hat. rewrite Forall_forall in Hl |- *. intros c Hc.
      apply not_space_or_at_spec. split; [by apply Hl|]. by intros ->. }
    exists user, (take i domain), (drop (S i) domain).
    rewrite (take_drop_middle domain i dot Hdot).
    pose proof (take_drop_middle domain i dot Hdot) as Hmid.
    split_and!; [done..| | |].
    + intros Htake. apply (f_equal length) in Htake.
      rewrite length_take in Htake. simpl in Htake. lia.
    + intros Hdrop. apply (f_equal length) in Hdrop.
      rewrite length_drop in Hdrop. simpl in Hdrop. lia.
    + rewrite <- Hmid in Hsd, Hd.
      rewrite Forall_app, Forall_cons in Hsd. destruct Hsd as (? & _ & ?).
      rewrite elem_of_app, elem_of_cons in Hd.
      rewrite !Forall_app. split_and!; apply Hjoin; tauto.
Qed.


(** ** trim *)

Lemma trimStart_all_space s :
  Forall (fun c => is_white_space c = true) s -> trimStart s = [].
Proof. induction 1 as [|c s Hc _ IH]; simpl; [done|]. by rewrite Hc. Qed.

Lemma trimStart_app_space pre s :
  Forall (fun c => is_white_space c = true) pre ->
  trimStart (pre ++ s) = trimStart s.
Proof. induction 1 as [|c pre Hc _ IH]; simpl; [done|]. by rewrite Hc. Qed.

Lemma trimStart_cases s :
  (trimStart s = [] /\ Forall (fun c => is_white_space c = true) s)
  \/ exists pre c r,
       s = pre ++ c :: r /\ trimStart s = c :: r
       /\ is_white_space c = false
       /\ Forall (fun c => is_white_space c = true) pre.
Proof.
  induction s as [|c s IH]; [by left|]. simpl.
  destruct (is_white_space c) eqn:Hc.
  - destruct IH as [[-> Hall]|(pre & d & r & -> & -> & Hd & Hpre)].
    + left. split; [done|]. by constructor.
    + right. exists (c :: pre), d, r. split_and!; [done..|]. by constructor.
  - right. exists [], c, s. by split_and!.
Qed.

Lemma trimStart_snoc s c :
  is_white_space c = false -> trimStart (s ++ [c]) = trimStart s ++ [c].
Proof.
  intros Hc. induction s as [|d s IH]; simpl; [by rewrite Hc|].
  by destruct (is_white_space d).
Qed.

Lemma trimEnd_app_space s post :
  Forall (fun c => is_white_space c = true) post ->
  trimEnd (s ++ post) = trimEnd s.
Proof.
  intros Hpost. unfold trimEnd. rewrite reverse_app.
  by rewrite trimStart_app_space by by apply Forall_reverse.
Qed.

Lemma trimEnd_cons c s :
  is_white_space c = false -> trimEnd (c :: s) = c :: trimEnd s.
Proof.
  intros Hc. unfold trimEnd. rewrite reverse_cons, trimStart_snoc by done.
  by rewrite reverse_app.
Qed.

Lemma trimEnd_all_space s :
  Forall (fun c => is_white_space c = true) s -> trimEnd s = [].
Proof.
  intros Hs. unfold trimEnd.
  by rewrite trimStart_all_space by by apply Forall_reverse.
Qed.

Lemma trimEnd_idemp s : trimEnd (trimEnd s) = trimEnd s.
Proof.
  unfold trimEnd. rewrite reverse_involutive. f_equal.
  destruct (trimStart_cases (reverse s)) as [[-> _]|(pre & c & r & _ & -> & Hc & _)];
    [done|]. simpl. by rewrite Hc.
Qed.

Lemma trimStart_trimEnd_keep c r :
  is_white_space c = false -> trimStart (trimEnd (c :: r)) = trimEnd (c :: r).
Proof. intros Hc. rewrite trimEnd_cons by done. simpl. by rewrite Hc. Qed.

Lemma trim_idemp s : trim (trim s) = trim s.
Proof.
  unfold trim.
  destruct (trimStart_cases s) as [[-> _]|(pre & c & r & _ & -> & Hc & _)];
    [done|].
  by rewrite trimStart_trimEnd_keep, trimEnd_idemp.
Qed.

(** White space around a value does not count. *)
Lemma trim_padded pre s post :
  Forall (fun c => is_white_space c = true) pre ->
  Forall (fun c => is_white_space c = true) post ->
  trim (pre ++ s ++ post) = trim s.
Proof.
  intros Hpre Hpost. unfold trim. rewrite trimStart_app_space by done.
  destruct (trimStart_cases s) as [[Hs Hall]|(pre' & c & r & -> & Hs & Hc & Hpre')].
  - rewrite Hs, trimStart_all_space; [done|]. by apply Forall_app.
  - rewrite Hs, <- app_assoc, trimStart_app_space by done. simpl.
    rewrite Hc. change (c :: r ++ post) with ((c :: r) ++ post).
    by rewrite trimEnd_app_space.
Qed.


(** ** validateField *)

Section ValidateFieldFacts.

Variable less_than_string : nat -> string -> bool.

#[local] Abbreviation errorMessage_of := (errorMessage_of less_than_string).
#[local] Abbreviation validateField := (validateField less_than_string).

Lemma errorMessage_of_with_value v f :
  trim v = trim (value f) ->
  errorMessage_of (with_value v f) = errorMessage_of f.
Proof. intros Hv. unfold errorMessage_of. simpl. by rewrite Hv. Qed.

Lemma validateField_with_value v f err :
  trim v = trim (value f) ->
  (validateField (with_value v f) err).1 = (validateField f err).1
  /\ (validateField (with_value v f) err).2.2 = (validateField f err).2.2
  /\ classList (validateField (with_value v f) err).2.1
     = classList (validateField f err).2.1
  /\ aria_invalid (validateField (with_value v f) err).2.1
     = aria_invalid (validateField f err).2.1.
Proof.
  intros Hv. unfold validateField.
  rewrite (errorMessage_of_with_value v f Hv).
  by destruct (errorMessage_of f).
Qed.

(** X13.  White space before and after the value of a field changes
    nothing of what [validateField] returns, writes into the error element
    and sets on the field. *)
Theorem outer_space_is_ignored f err pre post :
  Forall (fun c => is_white_space c = true) pre ->
  Forall (fun c => is_white_space c = true) post ->
  let padded := with_value (pre ++ value f ++ post) f in
  (validateField padded err).1 = (validateField f err).1
  /\ (validateField padded err).2.2 = (validateField f err).2.2
  /\ classList (validateField padded err).2.1
     = classList (validateField f err).2.1
  /\ aria_invalid (validateField padded err).2.1
     = aria_invalid (validateField f err).2.1.
Proof.
  intros Hpre Hpost padded. apply validateField_with_value.
  by apply trim_padded.
Qed.

(** X14.  What [validateField] returns is what the page shows afterwards:
    on [true] the field has the class "success" and not "error",
    aria-invalid is "false" and the error element is empty and hidden; on
    [false] the field has "error" and not "success", aria-invalid is "true"
    and the error element shows a message that is not empty.  The other
    classes of the field stay. *)
Theorem validateField_verdict_shown f err :
  let result := validateField f err in
  let after := result.2.1 in
  (if result.1 then
     "success" ∈ classList after /\ ("error" ∉ classList after)
     /\ aria_invalid after = Some "false"
     /\ result.2.2
        = (fun _ => {| error_text := EmptyString; error_shown := false |})
          <$> err
   else
     "error" ∈ classList after /\ ("success" ∉ classList after)
     /\ aria_invalid after = Some "true"
     /\ exists message,
          message ≠ EmptyString
          /\ result.2.2
             = (fun _ => {| error_text := message; error_shown := true |})
               <$> err)
  /\ (forall class, class ≠ "error" -> class ≠ "success" ->
        class ∈ classList after <-> class ∈ classList f).
Proof.
  intros result after. unfold after, result, validateField.
  destruct (errorMessage_of f) as [|c message] eqn:Hmessage; simpl.
  - split; [|set_unfold; intuition congruence].
    split_and!; [set_unfold; intuition congruence..|done|done].
  - split; [|set_unfold; intuition congruence].
    split_and!; [set_unfold; intuition congruence..|done|].
    exists (String c message). split; [done|]. by destruct err.
Qed.

Lemma required_message_not_empty s : s +:+ " is required" ≠ EmptyString.
Proof. by destruct s. Qed.

(** X15.  A value that is empty or white space only is refused exactly when
    the field is required, with the message "<label> is required", where the
    label is the text of the field's label or, without one, its name;
    whatever the type of the field. *)
Theorem blank_value_verdict f err :
  trim (value f) = [] ->
  (validateField f err).1 = negb (required f)
  /\ (required f = true ->
      (validateField f err).2.2
      = (fun _ => {| error_text := getFieldLabel f +:+ " is required";
                     error_shown := true |}) <$> err).
Proof.
  intros Hblank. unfold validateField, errorMessage_of. rewrite Hblank.
  destruct (required f); simpl.
  - pose proof (required_message_not_empty (getFieldLabel f)) as Hne.
    destruct (getFieldLabel f +:+ " is required") eqn:Hmessage; [done|].
    split; [done|]. intros _. simpl. by destruct err.
  - done.
Qed.


(** ** The validation of handleFormSubmission *)

Lemma validateField_without_error_element f err :
  (validateField f err).1 = (validateField f None).1
  /\ (validateField f err).2.1 = (validateField f None).2.1.
Proof. unfold validateField. by destruct (errorMessage_of f). Qed.

#[local] Abbreviation validate_in_form := (validate_in_form less_than_string).
#[local] Abbreviation validate_required := (validate_required less_than_string).

Lemma validate_in_form_fields i frm :
  fields (validate_in_form i frm).2
  = match fields frm !! i with
    | Some (parent, f) =>
        <[i := (parent, (validateField f None).2.1)]> (fields frm)
    | None => fields frm
    end
  /\ (validate_in_form i frm).1
     = match fields frm !! i with
       | Some (_, f) => (validateField f None).1
       | None => true
       end.
Proof.
  unfold validate_in_form. destruct (fields frm !! i) as [[parent f]|]; [|done].
  simpl. by destruct (validateField_without_error_element f
                        (form_errors frm !! parent)) as [-> ->].
Qed.

Lemma validate_loop l : forall frm isValid,
  NoDup l ->
  let after :=
    foldl (fun state i =>
             let result := validate_in_form i state.1 in
             (result.2, if result.1 then state.2 else false))
      (frm, isValid) l in
  (forall i, i ∉ l -> fields after.1 !! i = fields frm !! i)
  /\ (forall i parent f,
        i ∈ l -> fields frm !! i = Some (parent, f) ->
        fields after.1 !! i = Some (parent, (validateField f None).2.1))
  /\ (after.2 = true <->
      isValid = true
      /\ forall i parent f,
           i ∈ l -> fields frm !! i = Some (parent, f) ->
           (validateField f None).1 = true).
Proof.
  induction l as [|i l IH]; intros frm isValid Hnodup; simpl.
  - split_and!; [done|by intros i parent f ?%elem_of_nil|].
    split; [|by intros [? _]]. intros ->. split; [done|].
    by intros i parent f ?%elem_of_nil.
  - apply NoDup_cons in Hnodup as [Hi Hnodup].
    destruct (validate_in_form_fields i frm) as [Hfields Hverdict].
    set (frm1 := (validate_in_form i frm).2) in *.
    assert (Hother : forall j, j ≠ i -> fields frm1 !! j = fields frm !! j).
    { intros j Hj. rewrite Hfields.
      destruct (fields frm !! i) as [[parent f]|]; [|done].
      by rewrite list_lookup_insert_ne. }
    destruct (IH frm1 (if (validate_in_form i frm).1 then isValid else false)
                Hnodup) as (Hout & Hin & Hvalid).
    split_and!.
    + intros j Hj. rewrite not_elem_of_cons in Hj. destruct Hj as [Hji Hjl].
      rewrite Hout by done. by apply Hother.
    + intros j parent f [->|Hj]%elem_of_cons Hf.
      * rewrite Hout by done. rewrite Hfields, Hf.
        apply list_lookup_insert_eq. by eapply lookup_lt_Some.
      * apply Hin; [done|]. rewrite Hother; [done|]. by intros ->.
    + rewrite Hvalid, Hverdict. split.
      * intros [Hnow Hrest]. split.
        -- destruct (fields frm !! i) as [[parent f]|];
             [by destruct (validateField f None).1|done].
        -- intros j parent f [->|Hj]%elem_of_cons Hf.
           ++ rewrite Hf in Hnow. by destruct (validateField f None).1.
           ++ eapply Hrest; [done|]. rewrite Hother; [done|]. by intros ->.
      * intros [-> Hall]. split.
        -- destruct (fields frm !! i) as [[parent f]|] eqn:Hf; [|done].
           by rewrite (Hall i parent f) by (done || by left).
        -- intros j parent f Hj Hf. apply (Hall j parent f); [by right|].
           rewrite <- Hother; [done|]. by intros ->.
Qed.

Lemma elem_of_required_inputs frm i :
  i ∈ required_inputs frm <->
  exists parent f, fields frm !! i = Some (parent, f) /\ required f = true.
Proof.
  unfold required_inputs. rewrite list_elem_of_filter, elem_of_seq. split.
  - intros [Hreq _]. destruct (fields frm !! i) as [[parent f]|]; [|done].
    simpl in Hreq. injection Hreq as Hreq. eauto.
  - intros (parent & f & Hf & Hreq). rewrite Hf. simpl. rewrite Hreq.
    split; [done|]. apply lookup_lt_Some in Hf. lia.
Qed.

(** X16.  On submit every required field is validated, also after one has
    failed, and [isValid] is true exactly when each of them passes; a field
    that is not required is not validated and stays as it is. *)
Theorem submit_validates_required_fields frm :
  let after := validate_required frm in
  (after.2 = true <->
   forall i parent f,
     fields frm !! i = Some (parent, f) -> required f = true ->
     (validateField f (form_errors frm !! parent)).1 = true)
  /\ (forall i parent f,
        fields frm !! i = Some (parent, f) -> required f = true ->
        fields after.1 !! i
        = Some (parent, (validateField f (form_errors frm !! parent)).2.1))
  /\ (forall i parent f,
        fields frm !! i = Some (parent, f) -> required f = false ->
        fields after.1 !! i = Some (parent, f)).
Proof.
  intros after. unfold after, validate_required.
  destruct (validate_loop (required_inputs frm) frm true) as (Hout & Hin & Hvalid).
  { apply NoDup_filter, NoDup_seq. }
  split_and!.
  - rewrite Hvalid. split.
    + intros [_ Hall] i parent f Hf Hreq.
      destruct (validateField_without_error_element f
                  (form_errors frm !! parent)) as [-> _].
      apply (Hall i parent f); [|done]. apply elem_of_required_inputs. eauto.
    + intros Hall. split; [done|]. intros i parent f Hi Hf.
      apply elem_of_required_inputs in Hi as (parent' & f' & Hf' & Hreq).
      rewrite Hf in Hf'. injection Hf' as <- <-.
      destruct (validateField_without_error_element f
                  (form_errors frm !! parent)) as [<- _]. by eapply Hall.
  - intros i parent f Hf Hreq.
    destruct (validateField_without_error_element f
                (form_errors frm !! parent)) as [_ ->].
    apply Hin; [|done]. apply elem_of_required_inputs. eauto.
  - intros i parent f Hf Hreq. rewrite Hout; [done|].
    intros (parent' & f' & Hf' & Hreq')%elem_of_required_inputs.
    rewrite Hf in Hf'. injection Hf' as <- <-. congruence.
Qed.


(** The error element behind a key while the loop runs: it is written by
    the last field of the list that has the key. *)
Lemma validateField_error_element f el el' :
  (validateField f (Some el)).2.2 = (validateField f (Some el')).2.2
  /\ is_Some (validateField f (Some el)).2.2.
Proof. unfold validateField. by destruct (errorMessage_of f). Qed.

Lemma validate_in_form_errors i frm key :
  form_errors (validate_in_form i frm).2 !! key
  = match fields frm !! i with
    | Some (key', f) =>
        if decide (key' = key) then
          (validateField f (form_errors frm !! key)).2.2
        else form_errors frm !! key
    | None => form_errors frm !! key
    end.
Proof.
  unfold validate_in_form. destruct (fields frm !! i) as [[key' f]|]; [|done].
  simpl. destruct (decide (key' = key)) as [->|Hne].
  - destruct (validateField f (form_errors frm !! key)).2.2 as [err|] eqn:Herr;
      [by rewrite lookup_insert_eq|].
    unfold validateField in Herr.
    destruct (form_errors frm !! key); [|done].
    by destruct (errorMessage_of f).
  - destruct (validateField f (form_errors frm !! key')).2.2;
      [by rewrite lookup_insert_ne|done].
Qed.

Lemma validate_loop_errors l : forall frm isValid key el,
  NoDup l ->
  form_errors frm !! key = Some el ->
  let after :=
    foldl (fun state i =>
             let result := validate_in_form i state.1 in
             (result.2, if result.1 then state.2 else false))
      (frm, isValid) l in
  (forall i f, i ∈ l -> fields frm !! i = Some (key, f) ->
     (forall j f', j ∈ l -> fields frm !! j = Some (key, f') ->
        (j <= i)%nat) ->
     StronglySorted lt l ->
     form_errors after.1 !! key = (validateField f (Some el)).2.2)
  /\ is_Some (form_errors after.1 !! key).
Proof.
  induction l as [|k l IH] using rev_ind; intros frm isValid key el Hnodup Hel.
  - simpl. split; [by intros i f ?%elem_of_nil|by rewrite Hel].
  - apply NoDup_app in Hnodup as (Hnodup & Hk & _).
    rewrite foldl_app. simpl.
    destruct (IH frm isValid key el Hnodup Hel) as [Hlast [el1 Hel1]].
    destruct (validate_loop l frm isValid Hnodup) as (Hout & _ & _).
    set (before := foldl _ (frm, isValid) l) in *.
    assert (Hfield : fields before.1 !! k = fields frm !! k).
    { apply Hout. intros Hin. by apply (Hk k), list_elem_of_singleton. }
    rewrite validate_in_form_errors, Hfield. split.
    + intros i f Hi Hf Hmax Hsorted.
      apply StronglySorted_app in Hsorted as (Hlt & Hsorted & _).
      apply elem_of_app in Hi as [Hi|Hi%list_elem_of_singleton].
      * assert (Hik : (i < k)%nat).
        { apply Hlt; [done|]. by apply list_elem_of_singleton. }
        destruct (fields frm !! k) as [[key' f']|] eqn:Hfk.
        -- destruct (decide (key' = key)) as [->|Hne].
           ++ assert ((k <= i)%nat); [|lia].
              apply (Hmax k f'); [|done].
              rewrite elem_of_app, list_elem_of_singleton. by right.
           ++ apply (Hlast i f); [done|done| |done].
              intros j f'' Hj. apply Hmax. rewrite elem_of_app. by left.
        -- apply (Hlast i f); [done|done| |done].
           intros j f'' Hj. apply Hmax. rewrite elem_of_app. by left.
      * subst i. rewrite Hf, decide_True by done. rewrite Hel1.
        apply validateField_error_element.
    + destruct (fields frm !! k) as [[key' f']|]; [|by rewrite Hel1].
      destruct (decide (key' = key)); [|by rewrite Hel1].
      rewrite Hel1. apply (validateField_error_element f' el1 el1).
Qed.

Lemma seq_sorted n : forall a, StronglySorted lt (seq a n).
Proof.
  induction n as [|n IH]; intros a; simpl; constructor; [apply IH|].
  apply Forall_forall. intros k Hk%elem_of_seq. lia.
Qed.

Lemma filter_sorted {A} (R : relation A) (P : A -> Prop)
    `{forall x, Decision (P x)} (l : list A) :
  StronglySorted R l -> StronglySorted R (filter P l).
Proof.
  induction 1 as [|x l _ IH Hx]; [constructor|].
  rewrite filter_cons. destruct (decide (P x)); [|done].
  constructor; [done|]. apply Forall_forall.
  intros y [_ Hy]%list_elem_of_filter. rewrite Forall_forall in Hx. by apply Hx.
Qed.

(** X17.  Fields whose parents lead to the same [.form-error] element
    share it: after the validation on submit that element shows what the
    last required field sharing it wrote, the message of that field or
    nothing when that field passes, whatever the fields before it came
    to. *)
Theorem shared_error_element_shows_last frm i key f el :
  fields frm !! i = Some (key, f) ->
  required f = true ->
  form_errors frm !! key = Some el ->
  (forall j f', (i < j)%nat -> fields frm !! j = Some (key, f') ->
     required f' = false) ->
  form_errors (validate_required frm).1 !! key
  = (validateField f (Some el)).2.2.
Proof.
  intros Hf Hreq Hel Hlast. unfold validate_required.
  destruct (validate_loop_errors (required_inputs frm) frm true key el)
    as [Hshown _]; [apply NoDup_filter, NoDup_seq|done|].
  apply (Hshown i f); [apply elem_of_required_inputs; eauto|done| |].
  - intros j f' (key' & f'' & Hj & Hreq')%elem_of_required_inputs Hj'.
    rewrite Hj' in Hj. injection Hj as <- <-.
    destruct (decide (j <= i)%nat) as [|Hgt]; [done|].
    rewrite (Hlast j f') in Hreq' by (lia || done). done.
  - apply filter_sorted, seq_sorted.
Qed.

End ValidateFieldFacts.

Lemma outer_space_is_ignored_witness :
  let f := {| value := Typewriter.text "me@example.org"; type := "email";
              name := "email"; tagName := "INPUT"; required := true;
              minlength := None; label := Some "Email";
              classList := {[ "form-input" ]}; aria_invalid := None |} in
  let err := Some {| error_text := "old"; error_shown := true |} in
  let padded := with_value ([32; 9]%N ++ value f ++ [10]%N) f in
  let validate := validateField (fun _ _ => false) in
  (validate padded err).1 = (validate f err).1
  /\ (validate padded err).2.2 = (validate f err).2.2
  /\ classList (validate padded err).2.1 = classList (validate f err).2.1
  /\ aria_invalid (validate padded err).2.1
     = aria_invalid (validate f err).2.1.
Proof.
  intros f err.
  apply (outer_space_is_ignored (fun _ _ => false) f err [32; 9]%N [10]%N);
    by repeat constructor.
Defined.

Lemma blank_value_verdict_witness :
  let f := {| value := [32; 32; 9]%N; type := "email";
              name := "email"; tagName := "INPUT"; required := true;
              minlength := None; label := None;
              classList := ∅; aria_invalid := None |} in
  let err := Some {| error_text := EmptyString; error_shown := false |} in
  (validateField (fun _ _ => false) f err).1 = negb (required f)
  /\ (required f = true ->
      (validateField (fun _ _ => false) f err).2.2
      = (fun _ => {| error_text := "email is required";
                     error_shown := true |}) <$> err).
Proof.
  intros f err. apply (blank_value_verdict (fun _ _ => false) f err).
  reflexivity.
Defined.

Example isValidEmail_examples :
  isValidEmail (Typewriter.text "a@b.c") = true
  /\ isValidEmail (Typewriter.text "a@b.c.") = true
  /\ isValidEmail (Typewriter.text "a@b") = false
  /\ isValidEmail (Typewriter.text "a@.c") = false
  /\ isValidEmail (Typewriter.text "a@b@c.d") = false
  /\ isValidEmail (Typewriter.text " a@b.c") = false.
Proof. by vm_compute. Qed.

Example textarea_needs_twenty :
  let message v :=
    {| value := Typewriter.text v; type := "textarea"; name := "message";
       tagName := "TEXTAREA"; required := true; minlength := None;
       label := None; classList := ∅; aria_invalid := None |} in
  (validateField (fun _ _ => false) (message "  Hello there, Karim  ") None).1
  = false
  /\ (validateField (fun _ _ => false)
        (message "Hello there, Karim!!") None).1 = true.
Proof. by vm_compute. Qed.


Lemma shared_error_element_shows_last_witness :
  let input v :=
    {| value := Typewriter.text v; type := "text"; name := "name";
       tagName := "INPUT"; required := true; minlength := None;
       label := None; classList := ∅; aria_invalid := None |} in
  let el := {| error_text := EmptyString; error_shown := false |} in
  let frm := {| fields := [(7%nat, input "K"); (7%nat, input "Helal")];
                form_errors := {[ 7%nat := el ]} |} in
  (validate_required (fun _ _ => false) frm).2 = false
  /\ form_errors (validate_required (fun _ _ => false) frm).1 !! 7%nat
     = Some el.
Proof.
  intros input el frm. split; [reflexivity|].
  apply (shared_error_element_shows_last (fun _ _ => false) frm 1 7
           (input "Helal") el).
  - reflexivity.
  - reflexivity.
  - reflexivity.
  - intros j f' Hj Hf'. destruct j as [|[|j]]; [lia|lia|]. discriminate Hf'.
Defined.

End ContactFormFacts.

(** * The typewriter *)

Module TypewriterFacts.
Import Typewriter.

#[local] Abbreviation effect ws shown index char deleting :=
  {| element := shown; words := ws; currentWordIndex := index;
     currentCharIndex := char; isDeleting := deleting; isRunning := true |}.

Lemma ticks_more n : forall t,
  ticks (S n) t = then_ (ticks n t) (fun t' => then_ (type t') (fun next => Fulfilled next.1)).
Proof.
  induction n as [|n IH]; intros t.
  - simpl. by destruct (type t) as [[t' d]|e].
  - change (ticks (S (S n)) t) with (then_ (type t) (fun next => ticks (S n) next.1)).
    change (ticks (S n) t) with (then_ (type t) (fun next => ticks n next.1)).
    destruct (type t) as [[t' d]|e]; simpl; [|done]. apply IH.
Qed.

Lemma split_not_empty s : split s ≠ [].
Proof.
  induction s as [|c s IH]; simpl; [done|].
  destruct (c =? comma)%N; [done|]. by destruct (split s).
Qed.

Section OneWord.

Variable ws : list js_string.
Variable index : nat.
Variable word : js_string.
Hypothesis Hword : ws !! index = Some word.

Lemma type_typing shown (char : Z) :
  0 <= char ->
  type (effect ws shown index char false)
  = Fulfilled
      (effect ws (take (Z.to_nat (char + 1)) word) index (char + 1)
         (bool_decide (char + 1 = Z.of_nat (length word))),
       Some (if bool_decide (char + 1 = Z.of_nat (length word))
             then Pause 2000 else Jittered 150)).
Proof.
  intros Hchar. unfold type. simpl. rewrite Hword. unfold substring_to.
  destruct (Z.eqb_spec (char + 1) (Z.of_nat (length word))) as [Heq|Hne].
  - by rewrite bool_decide_eq_true_2 by done.
  - rewrite bool_decide_eq_false_2 by done. simpl.
    destruct (Z.eqb_spec (char + 1) 0); [lia|done].
Qed.

Lemma type_deleting shown (char : Z) :
  type (effect ws shown index char true)
  = Fulfilled
      (if bool_decide (char - 1 = 0) then
         effect ws (take (Z.to_nat (char - 1)) word)
           ((index + 1) mod length ws)%nat (char - 1) false
       else
         effect ws (take (Z.to_nat (char - 1)) word) index (char - 1) true,
       Some (if bool_decide (char - 1 = 0) then Pause 500 else Jittered 75)).
Proof.
  unfold type. simpl. rewrite Hword. unfold substring_to.
  destruct (Z.eqb_spec (char - 1) 0) as [Heq|Hne].
  - by rewrite bool_decide_eq_true_2 by done.
  - by rewrite bool_decide_eq_false_2 by done.
Qed.

(** While the word is typed. *)
Lemma ticks_typing shown (k : nat) :
  (0 < k <= length word)%nat ->
  ticks k (effect ws shown index 0 false)
  = Fulfilled
      (effect ws (take k word) index (Z.of_nat k)
         (bool_decide (k = length word))).
Proof.
  induction k as [|k IH]; [lia|]. intros Hk.
  destruct k as [|k].
  - simpl. rewrite type_typing by lia. simpl. do 2 f_equal.
    apply bool_decide_ext. lia.
  - rewrite ticks_more, IH by lia. simpl.
    rewrite bool_decide_eq_false_2 by lia.
    rewrite type_typing by lia. simpl.
    replace (Z.to_nat (Z.of_nat (S k) + 1)) with (S (S k)) by lia.
    replace (Z.of_nat (S k) + 1) with (Z.of_nat (S (S k))) by lia.
    do 2 f_equal. apply bool_decide_ext. lia.
Qed.

(** While the word is deleted. *)
Lemma ticks_deleting shown (k : nat) :
  (0 < length word)%nat ->
  (k < length word)%nat ->
  ticks (length word + k) (effect ws shown index 0 false)
  = Fulfilled
      (effect ws (take (length word - k) word) index
         (Z.of_nat (length word - k)) true).
Proof.
  intros Hlen. induction k as [|k IH]; intros Hk.
  - rewrite Nat.add_0_r, Nat.sub_0_r, ticks_typing by lia.
    by rewrite bool_decide_eq_true_2.
  - replace (length word + S k)%nat with (S (length word + k)) by lia.
    rewrite ticks_more, IH by lia. simpl. rewrite type_deleting. simpl.
    rewrite bool_decide_eq_false_2 by lia.
    replace (Z.to_nat (Z.of_nat (length word - k) - 1))
      with (length word - S k)%nat by lia.
    by replace (Z.of_nat (length word - k) - 1)
      with (Z.of_nat (length word - S k)) by lia.
Qed.

Lemma ticks_whole_word shown :
  (0 < length word)%nat ->
  ticks (length word + length word) (effect ws shown index 0 false)
  = Fulfilled (effect ws [] ((index + 1) mod length ws)%nat 0 false).
Proof.
  intros Hlen.
  replace (length word + length word)%nat
    with (S (length word + (length word - 1))) by lia.
  rewrite ticks_more, ticks_deleting by lia. simpl. rewrite type_deleting.
  simpl. rewrite bool_decide_eq_true_2 by lia.
  replace (Z.to_nat (Z.of_nat (length word - (length word - 1)) - 1))
    with 0%nat by lia.
  by replace (Z.of_nat (length word - (length word - 1)) - 1) with 0 by lia.
Qed.

End OneWord.

(** X18.  A running effect that is about to type a word that is not empty
    shows the word letter by letter, then takes it away letter by letter,
    and after twice as many timeouts as the word has characters it shows
    nothing and is about to type the next word, the first one after the
    last. *)
Theorem typewriter_types_and_deletes ws index word shown :
  ws !! index = Some word ->
  word ≠ [] ->
  let t := effect ws shown index 0 false in
  (forall k, (0 < k <= length word)%nat ->
     exists t', ticks k t = Fulfilled t' /\ element t' = take k word)
  /\ (forall k, (k < length word)%nat ->
        exists t', ticks (length word + k) t = Fulfilled t'
                   /\ element t' = take (length word - k) word)
  /\ ticks (length word + length word) t
     = Fulfilled (effect ws [] ((index + 1) mod length ws)%nat 0 false).
Proof.
  intros Hword Hne t. unfold t.
  assert (Hlen : (0 < length word)%nat) by (destruct word; [done|simpl; lia]).
  split_and!.
  - intros k Hk. eexists. by rewrite (ticks_typing ws index word Hword).
  - intros k Hk. eexists. by rewrite (ticks_deleting ws index word Hword).
  - by apply ticks_whole_word.
Qed.

Lemma typewriter_types_and_deletes_witness :
  let ws := initTypewriter_words None in
  let word := text "CS Student" in
  let t := effect ws [] 3%nat 0 false in
  (forall k, (0 < k <= length word)%nat ->
     exists t', ticks k t = Fulfilled t' /\ element t' = take k word)
  /\ (forall k, (k < length word)%nat ->
        exists t', ticks (length word + k) t = Fulfilled t'
                   /\ element t' = take (length word - k) word)
  /\ ticks (length word + length word) t
     = Fulfilled (effect ws [] 0%nat 0 false).
Proof.
  intros ws word.
  apply (typewriter_types_and_deletes ws 3 word []); [reflexivity|done].
Defined.

(** X19.  On an empty word the effect is stuck: it goes on counting
    characters, shows nothing, and never moves to the next word. *)
Theorem typewriter_stuck_on_empty_word ws index shown char k :
  ws !! index = Some [] ->
  0 <= char ->
  ticks (S k) (effect ws shown index char false)
  = Fulfilled (effect ws [] index (char + Z.of_nat (S k)) false).
Proof.
  intros Hword Hchar. induction k as [|k IH].
  - simpl. rewrite (type_typing ws index [] Hword) by done. simpl.
    rewrite bool_decide_eq_false_2 by lia. by rewrite take_nil.
  - rewrite ticks_more, IH. simpl.
    rewrite (type_typing ws index [] Hword) by lia. simpl.
    rewrite bool_decide_eq_false_2 by lia. rewrite take_nil.
    do 2 f_equal. lia.
Qed.

Lemma typewriter_stuck_on_empty_word_witness :
  ticks 1000 (effect (initTypewriter_words (Some [])) (text "Hello") 0%nat 0 false)
  = Fulfilled (effect (initTypewriter_words (Some [])) [] 0%nat 1000 false).
Proof.
  apply (typewriter_stuck_on_empty_word (initTypewriter_words (Some []))
           0 (text "Hello") 0 999); [reflexivity|lia].
Defined.

Lemma type_in_range t :
  (currentWordIndex t < length (words t))%nat ->
  exists t' d,
    type t = Fulfilled (t', d) /\ words t' = words t
    /\ (currentWordIndex t' < length (words t'))%nat.
Proof.
  intros Hindex. unfold type. destruct (isRunning t); simpl; [|eauto].
  destruct (lookup_lt_is_Some_2 _ _ Hindex) as [word ->].
  destruct (isDeleting t); simpl.
  - destruct (currentCharIndex t - 1 =? 0); simpl; eexists _, _;
      (split; [done|]); (split; [done|]); simpl; [|done].
    apply Nat.mod_upper_bound. lia.
  - destruct (currentCharIndex t + 1 =? Z.of_nat (length word)); simpl;
      eexists _, _; by split_and!.
Qed.

Lemma ticks_in_range k : forall t,
  (currentWordIndex t < length (words t))%nat ->
  exists t',
    ticks k t = Fulfilled t' /\ words t' = words t
    /\ (currentWordIndex t' < length (words t'))%nat.
Proof.
  induction k as [|k IH]; intros t Hindex; simpl; [eauto|].
  destruct (type_in_range t Hindex) as (t1 & d & -> & Hwords & Hindex1). simpl.
  destruct (IH t1 Hindex1) as (t' & -> & Hwords' & Hindex').
  exists t'. split_and!; [done|congruence|done].
Qed.

(** X20.  [type] throws only when the effect has no word at its index, and
    the effect [initTypewriter] makes never gets there: whatever the
    [data-words] attribute holds, the list of words is not empty, [start]
    and every later timeout end without throwing, and the index stays
    inside the words. *)
Theorem initTypewriter_never_throws data_words shown k :
  let t := new shown (initTypewriter_words data_words) in
  exists t1 d t',
    start t = Fulfilled (t1, d)
    /\ ticks k t1 = Fulfilled t'
    /\ words t' = words t
    /\ words t ≠ []
    /\ (currentWordIndex t' < length (words t))%nat.
Proof.
  intros t.
  assert (Hwords : (0 < length (words t))%nat).
  { unfold t, new. simpl. rewrite length_fmap.
    destruct data_words as [s|]; simpl; [|lia].
    pose proof (split_not_empty s). destruct (split s); [done|simpl; lia]. }
  assert (Hne : words t ≠ []).
  { intros Hnil. rewrite Hnil in Hwords. simpl in Hwords. lia. }
  unfold start. simpl.
  destruct (type_in_range (effect (words t) shown 0%nat 0 false))
    as (t1 & d & Htype & Hw1 & Hi1); [done|].
  destruct (ticks_in_range k t1 Hi1) as (t' & Hticks & Hw' & Hi').
  simpl in Hw1. exists t1, d, t'.
  split_and!; [done|done|congruence|done|by rewrite <- Hw1, <- Hw'].
Qed.

Example empty_words_throw :
  start (new [] []) = Rejected TypeError.
Proof. reflexivity. Qed.

End TypewriterFacts.

(** * Project filtering *)

Module FilteringFacts.
Import Filtering.

Lemma run_lookup projects timeout i :
  run projects timeout !! i
  = (fun p =>
       match timeout.2 with
       | Reveal index =>
           if decide (index = i) then
             {| data_category := data_category p;
                project_style :=
                  {| display := display (project_style p); opacity := "1";
                     transform := "translateY(0)" |} |}
           else p
       | Remove index =>
           if decide (index = i) then
             {| data_category := data_category p;
                project_style :=
                  {| display := "none"; opacity := opacity (project_style p);
                     transform := transform (project_style p) |} |}
           else p
       end) <$> projects !! i.
Proof.
  unfold run. destruct timeout.2 as [index|index];
    destruct (decide (index = i)) as [->|Hne].
  - by rewrite list_lookup_alter_eq.
  - rewrite list_lookup_alter_ne by done. by destruct (projects !! i).
  - by rewrite list_lookup_alter_eq.
  - rewrite list_lookup_alter_ne by done. by destruct (projects !! i).
Qed.

(** The project at [i] after the timeouts of a list have run: removed when
    a [Remove i] is among them, revealed when a [Reveal i] is. *)
Lemma run_all_lookup timeouts : forall projects i p,
  projects !! i = Some p ->
  exists p',
    run_all projects timeouts !! i = Some p'
    /\ data_category p' = data_category p
    /\ display (project_style p')
       = (if existsb (fun t => bool_decide (t.2 = Remove i)) timeouts
          then "none" else display (project_style p))
    /\ opacity (project_style p')
       = (if existsb (fun t => bool_decide (t.2 = Reveal i)) timeouts
          then "1" else opacity (project_style p))
    /\ transform (project_style p')
       = (if existsb (fun t => bool_decide (t.2 = Reveal i)) timeouts
          then "translateY(0)" else transform (project_style p)).
Proof.
  induction timeouts as [|t timeouts IH] using rev_ind; intros projects i p Hp.
  - exists p. by split_and!.
  - destruct (IH projects i p Hp) as (p1 & Hp1 & Hcat & Hdisplay & Hopacity & Htransform).
    unfold run_all in *. rewrite foldl_app. simpl.
    rewrite run_lookup, Hp1. simpl. eexists. split; [done|].
    rewrite !existsb_app. simpl. rewrite !orb_false_r.
    destruct t as [delay [index|index]]; simpl;
      destruct (decide (index = i)) as [->|Hne]; simpl;
      repeat case_bool_decide; try congruence; simpl;
      rewrite ?orb_true_r, ?orb_false_r; by split_and!.
Qed.

Lemma existsb_callback (c : callback) (timeouts : list (Z * callback)) :
  existsb (fun t => bool_decide (t.2 = c)) timeouts = true
  <-> exists delay, (delay, c) ∈ timeouts.
Proof.
  rewrite existsb_exists. split.
  - intros ([delay c'] & Hin & Hc). apply bool_decide_eq_true in Hc.
    simpl in Hc. subst c'. exists delay. by apply list_elem_of_In.
  - intros (delay & Hin). exists (delay, c). split; [by apply list_elem_of_In|].
    by apply bool_decide_eq_true.
Qed.

Lemma timeouts_of_filterProjects projects filter delay c :
  (delay, c) ∈ (filterProjects projects filter).2
  <-> exists i p,
        projects !! i = Some p
        /\ (delay, c) = (filter_project filter i p).2.
Proof.
  unfold filterProjects. simpl. rewrite elem_of_lookup_imap.
  split; intros (i & p & ? & ?); by exists i, p.
Qed.

Lemma filter_project_callback filter i p j c delay :
  (delay, c) = (filter_project filter j p).2 ->
  (c = Reveal i <-> j = i /\ shouldShow filter p = true)
  /\ (c = Remove i <-> j = i /\ shouldShow filter p = false).
Proof.
  unfold filter_project. destruct (shouldShow filter p); simpl;
    intros [= -> ->]; split; split; (intros [= ->] || intros [-> ?]); done.
Qed.

(** X21.  Once the timeouts of a call of [filterProjects] have run, in
    whatever order, a project is shown (display "block", opacity "1",
    transform "translateY(0)") when the filter is "all" or is its category,
    and is taken away (display "none", opacity "0", transform
    "translateY(20px)") otherwise. *)
Theorem filterProjects_settles projects filter order i p :
  Permutation order (filterProjects projects filter).2 ->
  projects !! i = Some p ->
  run_all (filterProjects projects filter).1 order !! i
  = Some
      {| data_category := data_category p;
         project_style :=
           if shouldShow filter p then
             {| display := "block"; opacity := "1";
                transform := "translateY(0)" |}
           else
             {| display := "none"; opacity := "0";
                transform := "translateY(20px)" |} |}.
Proof.
  intros Horder Hp.
  assert (Hfirst : (filterProjects projects filter).1 !! i
                   = Some (filter_project filter i p).1).
  { unfold filterProjects. simpl. by rewrite list_lookup_imap, Hp. }
  destruct (run_all_lookup order _ i _ Hfirst)
    as (p' & -> & Hcat & Hdisplay & Hopacity & Htransform).
  assert (Hmem : forall c,
    existsb (fun t => bool_decide (t.2 = c)) order = true
    <-> exists delay j q, projects !! j = Some q
                          /\ (delay, c) = (filter_project filter j q).2).
  { intros c. rewrite existsb_callback. split.
    - intros [delay Hin]. exists delay.
      apply timeouts_of_filterProjects. by rewrite <- Horder.
    - intros (delay & Hin). exists delay. rewrite Horder.
      by apply timeouts_of_filterProjects. }
  assert (Hreveal :
    existsb (fun t => bool_decide (t.2 = Reveal i)) order
    = shouldShow filter p).
  { apply eq_true_iff_eq. rewrite Hmem. split.
    - intros (delay & j & q & Hq & Hc).
      apply (filter_project_callback filter i) in Hc as [Hc _].
      destruct (proj1 Hc eq_refl) as [-> ?]. congruence.
    - intros Hshow. exists (Z.of_nat i * 100), i, p. split; [done|].
      unfold filter_project. by rewrite Hshow. }
  assert (Hremove :
    existsb (fun t => bool_decide (t.2 = Remove i)) order
    = negb (shouldShow filter p)).
  { apply eq_true_iff_eq. rewrite Hmem, negb_true_iff. split.
    - intros (delay & j & q & Hq & Hc).
      apply (filter_project_callback filter i) in Hc as [_ Hc].
      destruct (proj1 Hc eq_refl) as [-> ?]. congruence.
    - intros Hshow. exists 300, i, p. split; [done|].
      unfold filter_project. by rewrite Hshow. }
  rewrite Hremove in Hdisplay. rewrite Hreveal in Hopacity, Htransform.
  destruct p' as [category [d o t]]. simpl in *. subst.
  unfold filter_project. by destruct (shouldShow filter p).
Qed.

(** X22.  Timeouts are not cancelled.  When a second filter is chosen while
    the [Remove] timeout that the first one set for a project is still to
    run, and the second filter selects the project, the project ends up
    with display "none" and opacity "1": taken away although it should be
    shown. *)
Theorem second_filter_loses_to_pending_timeout
    projects filter1 filter2 early late order i p :
  projects !! i = Some p ->
  shouldShow filter1 p = false ->
  shouldShow filter2 p = true ->
  let first := filterProjects projects filter1 in
  Permutation (early ++ late) first.2 ->
  (300, Remove i) ∈ late ->
  let second := filterProjects (run_all first.1 early) filter2 in
  Permutation order (late ++ second.2) ->
  exists p',
    run_all second.1 order !! i = Some p'
    /\ display (project_style p') = "none"
    /\ opacity (project_style p') = "1".
Proof.
  intros Hp Hhide Hshow first Hsplit Hlate second Horder.
  assert (Hfirst : first.1 !! i = Some (filter_project filter1 i p).1).
  { unfold first, filterProjects. simpl. by rewrite list_lookup_imap, Hp. }
  destruct (run_all_lookup early _ i _ Hfirst) as (p1 & Hp1 & Hcat1 & _).
  assert (Hcat : data_category p1 = data_category p).
  { rewrite Hcat1. unfold filter_project. by destruct (shouldShow filter1 p). }
  assert (Hshow1 : shouldShow filter2 p1 = true).
  { unfold shouldShow in *. by rewrite Hcat. }
  assert (Hsecond : second.1 !! i = Some (filter_project filter2 i p1).1).
  { unfold second. unfold filterProjects at 1. cbn [fst].
    by rewrite list_lookup_imap, Hp1. }
  destruct (run_all_lookup order _ i _ Hsecond)
    as (p' & Hp' & _ & Hdisplay & Hopacity & _).
  exists p'. split; [done|].
  assert (Hremove :
    existsb (fun t => bool_decide (t.2 = Remove i)) order = true).
  { apply existsb_callback. exists 300. rewrite Horder, elem_of_app. by left. }
  assert (Hreveal :
    existsb (fun t => bool_decide (t.2 = Reveal i)) order = true).
  { apply existsb_callback. exists (Z.of_nat i * 100).
    rewrite Horder, elem_of_app. right.
    apply timeouts_of_filterProjects. exists i, p1. split; [done|].
    unfold filter_project. by rewrite Hshow1. }
  by rewrite Hdisplay, Hopacity, Hremove, Hreveal.
Qed.


Lemma filterProjects_settles_witness :
  let card category :=
    {| data_category := Some category;
       project_style := {| display := EmptyString; opacity := EmptyString;
                           transform := EmptyString |} |} in
  let projects := [card "web"; card "data"; card "web"] in
  let timeouts := (filterProjects projects (Some "data")).2 in
  run_all (filterProjects projects (Some "data")).1 (reverse timeouts) !! 0%nat
  = Some {| data_category := Some "web";
            project_style := {| display := "none"; opacity := "0";
                                transform := "translateY(20px)" |} |}.
Proof.
  intros card projects timeouts.
  apply (filterProjects_settles projects (Some "data") (reverse timeouts) 0
           (card "web")).
  - apply reverse_Permutation.
  - reflexivity.
Defined.

Lemma second_filter_loses_to_pending_timeout_witness :
  let card category :=
    {| data_category := Some category;
       project_style := {| display := EmptyString; opacity := EmptyString;
                           transform := EmptyString |} |} in
  let projects := [card "web"; card "data"; card "web"] in
  let first := filterProjects projects (Some "data") in
  let early := [(100, Reveal 1)] in
  let late := [(300, Remove 0); (300, Remove 2)] in
  let second := filterProjects (run_all first.1 early) (Some "all") in
  exists p',
    run_all second.1 (late ++ second.2) !! 0%nat = Some p'
    /\ display (project_style p') = "none"
    /\ opacity (project_style p') = "1".
Proof.
  intros card projects first early late second.
  apply (second_filter_loses_to_pending_timeout projects (Some "data")
           (Some "all") early late (late ++ second.2) 0 (card "web")).
  - reflexivity.
  - reflexivity.
  - reflexivity.
  - apply perm_swap.
  - unfold late. rewrite elem_of_cons. by left.
  - reflexivity.
Defined.

End FilteringFacts.

(** * Scroll depth and throttling *)

Module AnalyticsFacts.
Import Analytics.

Lemma scrolls_reports positions : forall maxScroll,
  let result := scrolls maxScroll positions in
  maxScroll <= result.1
  /\ StronglySorted Z.lt result.2
  /\ Forall (fun percent =>
               maxScroll < percent <= result.1 /\ Z.rem percent 25 = 0
               /\ Some percent ∈ positions) result.2.
Proof.
  induction positions as [|position rest IH]; intros maxScroll; simpl.
  - split_and!; [lia|constructor|constructor].
  - destruct (IH (on_scroll maxScroll position).1) as (Hmax & Hsorted & Hall).
    assert (Hweaken : forall m,
      m <= (on_scroll maxScroll position).1 ->
      Forall (fun percent =>
                m < percent <= (scrolls (on_scroll maxScroll position).1 rest).1
                /\ Z.rem percent 25 = 0 /\ Some percent ∈ position :: rest)
        (scrolls (on_scroll maxScroll position).1 rest).2).
    { intros m Hm. eapply Forall_impl; [exact Hall|].
      intros percent (? & ? & ?).
      split_and!; try lia; try done. rewrite elem_of_cons; by right. }
    unfold on_scroll in *. destruct position as [percent|]; simpl in *.
    + destruct (Z.gtb_spec percent maxScroll) as [Hgt|Hle]; simpl in *.
      * destruct (Z.eqb_spec (Z.rem percent 25) 0) as [Hrem|Hrem]; simpl in *.
        -- split_and!; [lia| |].
           ++ constructor; [done|]. eapply Forall_impl; [exact Hall|].
              intros p (? & _). lia.
           ++ constructor.
              { split_and!; try lia; try done. rewrite elem_of_cons; by left. }
              apply Hweaken. lia.
        -- split_and!; [done|done|]. apply Hweaken. lia.
      * split_and!; [done|done|]. apply Hweaken. lia.
    + split_and!; [done|done|]. apply Hweaken. lia.
Qed.

Lemma steps_of_25 (reports : list Z) : forall low,
  Z.rem low 25 = 0 ->
  StronglySorted Z.lt reports ->
  Forall (fun percent => low < percent <= 100 /\ Z.rem percent 25 = 0) reports ->
  25 * Z.of_nat (length reports) <= Z.max 0 (100 - low).
Proof.
  induction reports as [|percent reports IH]; intros low Hlow Hsorted Hall.
  - simpl. lia.
  - apply StronglySorted_inv in Hsorted as [Hsorted Hhead].
    apply Forall_cons in Hall as [(Hgt & Hrem) Hall].
    assert (Hnext : 25 * Z.of_nat (length reports) <= Z.max 0 (100 - percent)).
    { apply IH; [done|done|].
      rewrite Forall_forall in Hall. rewrite Forall_forall in Hhead.
      apply Forall_forall. intros p Hp.
      destruct (Hall p Hp) as ((_ & ?) & ?). specialize (Hhead p Hp).
      split_and!; try lia; done. }
    pose proof (Z.quot_rem' low 25). pose proof (Z.quot_rem' percent 25).
    simpl length. lia.
Qed.

(** X23.  The scroll depths reported to analytics, for any sequence of
    scroll positions, are strictly increasing positive multiples of 25,
    each of them a position that a scroll event had exactly; so no depth is
    reported twice, and for positions up to 100 percent there are at most
    four reports. *)
Theorem scroll_depth_reports positions :
  let reports := (scrolls 0 positions).2 in
  StronglySorted Z.lt reports
  /\ Forall (fun percent =>
               0 < percent /\ Z.rem percent 25 = 0
               /\ Some percent ∈ positions) reports
  /\ (Forall (fun position =>
                forall percent, position = Some percent -> percent <= 100)
        positions ->
      (length reports <= 4)%nat).
Proof.
  intros reports. unfold reports.
  destruct (scrolls_reports positions 0) as (_ & Hsorted & Hall).
  split_and!; [done| |].
  - eapply Forall_impl; [exact Hall|]. intros p ((? & _) & ? & ?). done.
  - intros Hbound.
    pose proof (steps_of_25 (scrolls 0 positions).2 0 eq_refl Hsorted) as Hlen.
    cut (25 * Z.of_nat (length (scrolls 0 positions).2) <= Z.max 0 (100 - 0));
      [lia|].
    apply Hlen. rewrite Forall_forall in Hall. rewrite Forall_forall in Hbound.
    apply Forall_forall. intros p Hp.
    destruct (Hall p Hp) as ((? & _) & ? & Hin).
    split_and!; try lia; try done. by apply (Hbound _ Hin).
Qed.

Example scroll_depth_example :
  scrolls 0 [Some 10; Some 25; Some 24; Some 25; None; Some 51; Some 75;
             Some 50; Some 100; Some 100]
  = (100, [25; 75; 100]).
Proof. reflexivity. Qed.

End AnalyticsFacts.

Module RafThrottleFacts.
Import RafThrottle.

Section ThrottledFacts.

Variable Args State : Type.
Variable callback : Args -> State -> State * option js_error.

#[local] Abbreviation frame := (frame Args State callback).
#[local] Abbreviation events := (events Args State callback).
#[local] Abbreviation call := (call Args).
#[local] Abbreviation throttle := (throttle Args).
#[local] Abbreviation called := (called Args).
#[local] Abbreviation frames := (frames Args).

Lemma frame_queued (t : throttle) s : queued Args (frame t s).1.1 = None.
Proof.
  unfold frame. destruct (queued Args t) as [args|] eqn:Hq; [|done].
  by destruct (callback args s) as [s' [e|]].
Qed.

Lemma events_runs l : forall (t : throttle) s,
  (events l t s).2 `sublist_of` option_list (queued Args t) ++ called l
  /\ (length (events l t s).2 <= frames l)%nat.
Proof.
  induction l as [|[args|] l IH]; intros t s; simpl.
  - split; [apply sublist_nil_l|done].
  - destruct (IH (call args t) s) as [Hsub Hlen]. split; [|done].
    unfold call in *. destruct (requested Args t).
    + etrans; [exact Hsub|]. apply sublist_app; [done|]. by apply sublist_cons.
    + simpl in Hsub. etrans; [exact Hsub|]. apply sublist_inserts_l. done.
  - destruct (IH (frame t s).1.1 (frame t s).1.2) as [Hsub Hlen].
    rewrite frame_queued in Hsub. simpl in Hsub.
    destruct (queued Args t) as [args|]; simpl.
    + split; [by apply sublist_skip|lia].
    + split; [done|lia].
Qed.

(** X24.  Whatever calls and frames come, in whatever order, the callback
    of a function made by [rafThrottle] runs at most once per frame, and the
    arguments it runs with are arguments the function was called with, in
    the order of the calls: calls are dropped, never repeated or
    reordered. *)
Theorem rafThrottle_runs l s :
  let runs := (events l (fresh Args) s).2 in
  runs `sublist_of` called l /\ (length runs <= frames l)%nat.
Proof. apply (events_runs l (fresh Args) s). Qed.

Lemma events_stuck l : forall s,
  events l {| requested := true; queued := None |} s
  = ({| requested := true; queued := None |}, s, []).
Proof. induction l as [|[args|] l IH]; intros s; simpl; by rewrite ?IH. Qed.

(** X25.  Once the callback has thrown, the function made by [rafThrottle]
    is dead: [requestId] is never reset, so every later call is dropped and
    the callback never runs again. *)
Theorem rafThrottle_dead_after_throw (t : throttle) s args e l :
  requested Args t = true ->
  queued Args t = Some args ->
  (callback args s).2 = Some e ->
  let thrown := frame t s in
  thrown.2 = Some e
  /\ events l thrown.1.1 thrown.1.2 = (thrown.1.1, thrown.1.2, []).
Proof.
  intros Hreq Hq Hthrow thrown. unfold thrown, frame. rewrite Hq.
  destruct (callback args s) as [s' [e'|]]; simpl in *; [|done].
  injection Hthrow as ->. rewrite Hreq. split; [done|]. apply events_stuck.
Qed.

End ThrottledFacts.

Lemma rafThrottle_dead_after_throw_witness :
  let callback (args : nat) (s : nat) :=
    ((s + args)%nat, if Nat.eqb args 0 then Some TypeError else None) in
  let t := call nat 0%nat (fresh nat) in
  let thrown := frame nat nat callback t 10%nat in
  thrown.2 = Some TypeError
  /\ events nat nat callback [Call nat 5%nat; Frame nat; Call nat 7%nat; Frame nat]
       thrown.1.1 thrown.1.2
     = (thrown.1.1, thrown.1.2, []).
Proof.
  intros callback t.
  apply (rafThrottle_dead_after_throw nat nat callback t 10%nat 0%nat TypeError);
    reflexivity.
Defined.

End RafThrottleFacts.
